(** * fluxlog/msg: a shallow embedding of the schema-driven MessagePack codec

    The development follows the Go package [msg]:
    - the value-returning API of [msg/public.go] ([WriteInterface], [ReadInt],
      ..., [ReadInterface]);
    - the schema layer of [msg/schema.go] ([MakeSchema], [DecodeToMap],
      [Encode], [encode]);
    - the older pointer-writing API kept in module [Legacy] ([Write],
      [ReadFloat], ...).

    Bytes are integers in [0, 256); a Go [string] is a Rocq [string]; a
    [map[string]interface{}] is a [gmap string iface]; Go interface values
    carry their dynamic type as a constructor of [iface]. *)

From Stdlib Require Import ZArith Lia Ascii String List Bool.
From stdpp Require Import gmap strings list fin_maps.

Local Open Scope Z_scope.

(** ** Faults *)

(** The three error values of [schema.go], [ErrBadTag] used by [public.go],
    and the faults of the byte source. *)
Inductive error : Set :=
| ErrTypeNotSupported
| ErrIncorrectType
| ErrBadArgs
| ErrBadTag
| EOF
| ErrUnexpectedEOF
| ErrInvalidUnreadByte.

(** A Go call either returns or panics. *)
Inductive outcome (A : Type) : Type :=
| Normal (a : A)
| Panics.
Arguments Normal {A} a.
Arguments Panics {A}.

(** [(value, err)] results of the readers: when [err] is non-nil the value
    carries no information and is dropped. *)
Inductive result (A : Type) : Type :=
| Ok (a : A)
| Err (e : error).
Arguments Ok {A} a.
Arguments Err {A} e.

(** ** Data model *)

(** [msg.Type]: the closed enumeration of value kinds.  ([Type] is reserved
    in Rocq, hence [MType].) *)
Inductive MType : Set :=
| Int | Uint | Float | Bool | String | Bin | Ext | Invalid.

#[global] Instance MType_eq_dec : EqDecision MType.
Proof. solve_decision. Defined.

(** [msg.PackExt]: an 8-bit signed type identifier with binary data.  The
    field is called [EType] in [public.go] and [Type] in the older file. *)
Record PackExt : Set := { EType : Z; Data : list Z }.

(** Go [interface{}] values, by dynamic type.  Floats are kept as their
    IEEE-754 bit patterns; [I_PackExtPtr None] is a nil [*PackExt];
    [I_other] stands for every dynamic type the package never asserts. *)
Inductive iface : Set :=
| I_nil
| I_float32 (bits : Z) | I_float64 (bits : Z)
| I_uint (u : Z) | I_uint8 (u : Z) | I_uint16 (u : Z) | I_uint32 (u : Z)
| I_uint64 (u : Z)
| I_int (i : Z) | I_int8 (i : Z) | I_int16 (i : Z) | I_int32 (i : Z)
| I_int64 (i : Z)
| I_bool (b : bool)
| I_string (s : string)
| I_bytes (b : list Z)
| I_PackExtPtr (p : option PackExt)
| I_PackExt (p : PackExt)
| I_other (tyname : string).

(** [msg.Object] and [msg.Schema]. *)
Record Object : Set := { T : MType; Name : string }.

Abbreviation Schema := (list Object).

(** ** Byte sink and byte source *)

(** Modelled from the spec: the byte sink ([msg.Writer]) is an external
    collaborator that accepts bytes; it is the list of bytes written so far.
    The writers of the package return nothing, so sink faults are not
    observable. *)
Abbreviation Writer := (list Z).

Definition WriteByte (w : Writer) (b : Z) : Writer := w ++ [b].
Definition WriteBytes (w : Writer) (p : list Z) : Writer := w ++ p.

(** Modelled from the spec: the byte source ([msg.Reader]) is an external
    collaborator with single-byte read, multi-byte read and one level of
    push-back.  [pending] are the bytes not yet consumed, [last] the byte a
    push-back would restore (present only right after a single-byte read). *)
Record Reader : Set := { pending : list Z; last : option Z }.

Definition rd (A : Type) : Type := Reader -> result A * Reader.

Definition rd_ret {A} (a : A) : rd A := fun r => (Ok a, r).
Definition rd_fail {A} (e : error) : rd A := fun r => (Err e, r).
Definition rd_bind {A B} (c : rd A) (k : A -> rd B) : rd B :=
  fun r => match c r with
           | (Ok a, r') => k a r'
           | (Err e, r') => (Err e, r')
           end.

Notation "'get!' x ':=' c 'in' k" := (rd_bind c (fun x => k))
  (at level 10, x name, c at level 100, k at level 200).

Definition ReadByte : rd Z := fun r =>
  match pending r with
  | [] => (Err EOF, r)
  | b :: tl => (Ok b, {| pending := tl; last := Some b |})
  end.

Definition UnreadByte (r : Reader) : option error * Reader :=
  match last r with
  | Some b => (None, {| pending := b :: pending r; last := None |})
  | None => (Some ErrInvalidUnreadByte, r)
  end.

(** Read exactly [n] bytes; a short source is a truncation fault and leaves
    nothing to read. *)
Definition ReadFull (n : nat) : rd (list Z) := fun r =>
  if (n <=? length (pending r))%nat
  then (Ok (take n (pending r)), {| pending := drop n (pending r); last := None |})
  else (Err (match pending r with [] => EOF | _ => ErrUnexpectedEOF end),
        {| pending := []; last := None |}).

(** ** Wire format *)

(** Modelled from the spec: the one-byte prefixes are not declared in the
    files at hand; section 4.1 fixes them to the standard tag layout of the
    format this one restricts. *)
Definition mfalse : Z := 0xc2.
Definition mtrue : Z := 0xc3.
Definition mbin8 : Z := 0xc4.
Definition mbin16 : Z := 0xc5.
Definition mbin32 : Z := 0xc6.
Definition mext8 : Z := 0xc7.
Definition mext16 : Z := 0xc8.
Definition mext32 : Z := 0xc9.
Definition mfloat32 : Z := 0xca.
Definition mfloat64 : Z := 0xcb.
Definition muint8 : Z := 0xcc.
Definition muint16 : Z := 0xcd.
Definition muint32 : Z := 0xce.
Definition muint64 : Z := 0xcf.
Definition mint8 : Z := 0xd0.
Definition mint16 : Z := 0xd1.
Definition mint32 : Z := 0xd2.
Definition mint64 : Z := 0xd3.
Definition mfixext1 : Z := 0xd4.
Definition mfixext2 : Z := 0xd5.
Definition mfixext4 : Z := 0xd6.
Definition mfixext8 : Z := 0xd7.
Definition mfixext16 : Z := 0xd8.
Definition mstr8 : Z := 0xd9.
Definition mstr16 : Z := 0xda.
Definition mstr32 : Z := 0xdb.

(** Modelled from the spec: big-endian fields of [n] bytes (section 6:
    multi-byte numeric fields are big-endian).  [be_encode] keeps the low
    [8 n] bits of [v], which is the two's complement form of a negative
    [v]. *)
Fixpoint be_encode (n : nat) (v : Z) : list Z :=
  match n with
  | O => []
  | S k => be_encode k (v / 256) ++ [v mod 256]
  end.

Definition be_decode (bs : list Z) : Z :=
  fold_left (fun acc b => acc * 256 + b) bs 0.

(** Sign extension of an [n]-byte field to the host integer. *)
Definition signed (n : nat) (u : Z) : Z :=
  let m := 256 ^ Z.of_nat n in
  let v := u mod m in
  if v <? m / 2 then v else v - m.

(** Modelled from the spec: widening of a 32-bit float to a 64-bit float
    (Go's [float64(f)]), on IEEE-754 bit patterns. *)
Definition float32_to_float64 (b : Z) : Z :=
  let s := Z.shiftl (Z.land (Z.shiftr b 31) 1) 63 in
  let e := Z.land (Z.shiftr b 23) 0xff in
  let m := Z.land b 0x7fffff in
  if e =? 0xff then Z.lor s (Z.lor (Z.shiftl 0x7ff 52) (Z.shiftl m 29))
  else if e =? 0 then
    if m =? 0 then s
    else let k := Z.log2 m in
         Z.lor s (Z.lor (Z.shiftl (k - 149 + 1023) 52)
                        (Z.shiftl (m - 2 ^ k) (52 - k)))
  else Z.lor s (Z.lor (Z.shiftl (e - 127 + 1023) 52) (Z.shiftl m 29)).

(** Go strings are byte sequences. *)
Definition string_bytes (s : string) : list Z :=
  map (fun c => Z.of_N (N_of_ascii c)) (list_ascii_of_string s).

Definition bytes_string (p : list Z) : string :=
  string_of_list_ascii (map (fun b => ascii_of_N (Z.to_N b)) p).

Definition zlen {A} (l : list A) : Z := Z.of_nat (length l).

(** ** Scalar codec *)

(** Modelled from the spec: [writeInt] is not in the files at hand.  Section
    4.2: the 7-bit positive or 5-bit negative fixed form when the value fits,
    else the narrowest of the 8/16/32/64-bit signed forms that holds it. *)
Definition writeInt (w : Writer) (i : Z) : Writer :=
  if (0 <=? i) && (i <? 128) then WriteByte w i
  else if (-32 <=? i) && (i <? 0) then WriteByte w (i + 256)
  else if (-128 <=? i) && (i <? 128) then WriteBytes w (mint8 :: be_encode 1 i)
  else if (-32768 <=? i) && (i <? 32768) then WriteBytes w (mint16 :: be_encode 2 i)
  else if (-2147483648 <=? i) && (i <? 2147483648)
       then WriteBytes w (mint32 :: be_encode 4 i)
  else WriteBytes w (mint64 :: be_encode 8 i).

(** Modelled from the spec: [writeUint] is not in the files at hand.  Section
    4.2: the narrowest of the 8/16/32/64-bit unsigned forms. *)
Definition writeUint (w : Writer) (u : Z) : Writer :=
  if u <? 256 then WriteBytes w (muint8 :: be_encode 1 u)
  else if u <? 65536 then WriteBytes w (muint16 :: be_encode 2 u)
  else if u <? 4294967296 then WriteBytes w (muint32 :: be_encode 4 u)
  else WriteBytes w (muint64 :: be_encode 8 u).

(** Modelled from the spec: [writeFloat64] and [writeFloat32] are not in
    the files at hand.  Section 4.2: explicit widths, tag then big-endian
    bit pattern. *)
Definition writeFloat64 (w : Writer) (f : Z) : Writer :=
  WriteBytes w (mfloat64 :: be_encode 8 f).

Definition writeFloat32 (w : Writer) (f : Z) : Writer :=
  WriteBytes w (mfloat32 :: be_encode 4 f).

(** Modelled from the spec: [writeFloat] is not in the files at hand.
    Section 4.2: the generic float writer emits the 64-bit form, floats are
    never compacted. *)
Definition writeFloat (w : Writer) (f : Z) : Writer := writeFloat64 w f.

(** Modelled from the spec: [writeBool] is not in the files at hand.
    Section 4.2: a single literal byte. *)
Definition writeBool (w : Writer) (b : bool) : Writer :=
  WriteByte w (if b then mtrue else mfalse).

(** Modelled from the spec: [writeString] is not in the files at hand.
    Section 4.2: the narrowest of the fixed/8/16/32-bit length-prefixed forms
    that addresses the byte length, then the bytes verbatim. *)
Definition writeString (w : Writer) (s : string) : Writer :=
  let p := string_bytes s in
  let n := zlen p in
  if n <? 32 then WriteBytes w (Z.lor 0xa0 n :: p)
  else if n <? 256 then WriteBytes w (mstr8 :: be_encode 1 n ++ p)
  else if n <? 65536 then WriteBytes w (mstr16 :: be_encode 2 n ++ p)
  else WriteBytes w (mstr32 :: be_encode 4 n ++ p).

(** Modelled from the spec: [writeBin] is not in the files at hand.  Section
    4.2: the narrowest of the 8/16/32-bit length-prefixed forms, then the
    bytes verbatim. *)
Definition writeBin (w : Writer) (p : list Z) : Writer :=
  let n := zlen p in
  if n <? 256 then WriteBytes w (mbin8 :: be_encode 1 n ++ p)
  else if n <? 65536 then WriteBytes w (mbin16 :: be_encode 2 n ++ p)
  else WriteBytes w (mbin32 :: be_encode 4 n ++ p).

(** Modelled from the spec: [writeExt] is not in the files at hand.
    Sections 4.2 and 4.4: the fixed form for 1, 2, 4, 8 or 16 payload bytes,
    else the narrowest 8/16/32-bit length form; the sub-type byte follows
    the tag (and length), the payload follows the sub-type. *)
Definition writeExt (w : Writer) (etype : Z) (data : list Z) : Writer :=
  let n := zlen data in
  let t := be_encode 1 etype in
  if n =? 1 then WriteBytes w (mfixext1 :: t ++ data)
  else if n =? 2 then WriteBytes w (mfixext2 :: t ++ data)
  else if n =? 4 then WriteBytes w (mfixext4 :: t ++ data)
  else if n =? 8 then WriteBytes w (mfixext8 :: t ++ data)
  else if n =? 16 then WriteBytes w (mfixext16 :: t ++ data)
  else if n <? 256 then WriteBytes w (mext8 :: be_encode 1 n ++ t ++ data)
  else if n <? 65536 then WriteBytes w (mext16 :: be_encode 2 n ++ t ++ data)
  else WriteBytes w (mext32 :: be_encode 4 n ++ t ++ data).

(** An [n]-byte big-endian field read off the source. *)
Definition readField (n : nat) : rd Z :=
  get! bs := ReadFull n in rd_ret (be_decode bs).

(** Modelled from the spec: [readInt] is not in the files at hand.  Section
    4.2: read the tag; a tag of another kind is [ErrBadTag]; otherwise
    consume that width form, sign-extending to 64 bits. *)
Definition readInt : rd Z :=
  get! c := ReadByte in
  if Z.land c 0x80 =? 0 then rd_ret (Z.land c 0x7f)
  else if Z.land c 0xe0 =? 0xe0 then rd_ret (signed 1 c)
  else if c =? mint8 then get! u := readField 1 in rd_ret (signed 1 u)
  else if c =? mint16 then get! u := readField 2 in rd_ret (signed 2 u)
  else if c =? mint32 then get! u := readField 4 in rd_ret (signed 4 u)
  else if c =? mint64 then get! u := readField 8 in rd_ret (signed 8 u)
  else rd_fail ErrBadTag.

(** Modelled from the spec: [readUint] is not in the files at hand.  Section
    4.2: as [readInt], over the unsigned forms, zero-extending. *)
Definition readUint : rd Z :=
  get! c := ReadByte in
  if c =? muint8 then readField 1
  else if c =? muint16 then readField 2
  else if c =? muint32 then readField 4
  else if c =? muint64 then readField 8
  else rd_fail ErrBadTag.

(** Modelled from the spec: [readFloat64] is not in the files at hand; it
    accepts the 64-bit form only. *)
Definition readFloat64 : rd Z :=
  get! c := ReadByte in
  if c =? mfloat64 then readField 8 else rd_fail ErrBadTag.

(** Modelled from the spec: [readFloat32] is not in the files at hand; it
    accepts the 32-bit form only. *)
Definition readFloat32 : rd Z :=
  get! c := ReadByte in
  if c =? mfloat32 then readField 4 else rd_fail ErrBadTag.

(** Modelled from the spec: [readFloat] is not in the files at hand.
    Section 4.2: either float form, the 32-bit one widened. *)
Definition readFloat : rd Z :=
  get! c := ReadByte in
  if c =? mfloat32 then get! b := readField 4 in rd_ret (float32_to_float64 b)
  else if c =? mfloat64 then readField 8
  else rd_fail ErrBadTag.

(** Modelled from the spec: [readBool] is not in the files at hand.  Section
    4.2: one of the two literals. *)
Definition readBool : rd bool :=
  get! c := ReadByte in
  if c =? mtrue then rd_ret true
  else if c =? mfalse then rd_ret false
  else rd_fail ErrBadTag.

(** Modelled from the spec: [readString] is not in the files at hand.
    Section 4.2: the length from the tag or the length field, then that
    many bytes. *)
Definition readString : rd string :=
  get! c := ReadByte in
  get! n := (if Z.land c 0xe0 =? 0xa0 then rd_ret (Z.land c 0x1f)
             else if c =? mstr8 then readField 1
             else if c =? mstr16 then readField 2
             else if c =? mstr32 then readField 4
             else rd_fail ErrBadTag) in
  get! p := ReadFull (Z.to_nat n) in
  rd_ret (bytes_string p).

(** Modelled from the spec: [readBin] is not in the files at hand.  Section
    4.2: the length field, then that many bytes.  The scratch buffer [b]
    only saves an allocation; the bytes returned do not depend on it. *)
Definition readBin (b : list Z) : rd (list Z) :=
  get! c := ReadByte in
  get! n := (if c =? mbin8 then readField 1
             else if c =? mbin16 then readField 2
             else if c =? mbin32 then readField 4
             else rd_fail ErrBadTag) in
  ReadFull (Z.to_nat n).

(** Modelled from the spec: [readExt] is not in the files at hand.  Section
    4.4: the inverse of [writeExt], giving the payload and the sub-type. *)
Definition readExt (b : list Z) : rd (list Z * Z) :=
  get! c := ReadByte in
  get! n := (if c =? mfixext1 then rd_ret 1
             else if c =? mfixext2 then rd_ret 2
             else if c =? mfixext4 then rd_ret 4
             else if c =? mfixext8 then rd_ret 8
             else if c =? mfixext16 then rd_ret 16
             else if c =? mext8 then readField 1
             else if c =? mext16 then readField 2
             else if c =? mext32 then readField 4
             else rd_fail ErrBadTag) in
  get! t := readField 1 in
  get! dat := ReadFull (Z.to_nat n) in
  rd_ret (dat, signed 1 t).

(** Modelled from the spec: the Type Tag System of section 4.1, the kind a
    leading byte introduces ([Invalid] for an unknown prefix). *)
Definition tagType (c : Z) : MType :=
  if Z.land c 0x80 =? 0 then Int
  else if Z.land c 0xe0 =? 0xe0 then Int
  else if Z.land c 0xe0 =? 0xa0 then String
  else if (c =? mfalse) || (c =? mtrue) then Bool
  else if (mint8 <=? c) && (c <=? mint64) then Int
  else if (muint8 <=? c) && (c <=? muint64) then Uint
  else if (c =? mfloat32) || (c =? mfloat64) then Float
  else if (mbin8 <=? c) && (c <=? mbin32) then Bin
  else if (mext8 <=? c) && (c <=? mext32) then Ext
  else if (mfixext1 <=? c) && (c <=? mfixext16) then Ext
  else if (mstr8 <=? c) && (c <=? mstr32) then String
  else Invalid.

(** ** [msg/public.go] *)

(** [WriteInterface]: the switch on [t], each case with its type assertion.
    Dereferencing a nil [*PackExt] panics. *)
Definition WriteInterface (w : Writer) (v : iface) (t : MType)
  : outcome (option error * Writer) :=
  match t with
  | String =>
      match v with
      | I_string s => Normal (None, writeString w s)
      | _ => Normal (Some ErrIncorrectType, w)
      end
  | Int =>
      match v with
      | I_int64 i => Normal (None, writeInt w i)
      | _ => Normal (Some ErrIncorrectType, w)
      end
  | Uint =>
      match v with
      | I_uint64 u => Normal (None, writeUint w u)
      | _ => Normal (Some ErrIncorrectType, w)
      end
  | Float =>
      match v with
      | I_float64 f => Normal (None, writeFloat w f)
      | _ => Normal (Some ErrIncorrectType, w)
      end
  | Bool =>
      match v with
      | I_bool t => Normal (None, writeBool w t)
      | _ => Normal (Some ErrIncorrectType, w)
      end
  | Bin =>
      match v with
      | I_bytes b => Normal (None, writeBin w b)
      | _ => Normal (Some ErrIncorrectType, w)
      end
  | Ext =>
      match v with
      | I_PackExtPtr (Some ext) => Normal (None, writeExt w (EType ext) (Data ext))
      | I_PackExtPtr None => Panics
      | _ => Normal (Some ErrIncorrectType, w)
      end
  | Invalid => Normal (Some ErrTypeNotSupported, w)
  end.

(** [public.go]: the exported writers are the unexported ones. *)
Definition WriteFloat (w : Writer) (f : Z) : Writer := writeFloat w f.
Definition WriteFloat64 (w : Writer) (f : Z) : Writer := writeFloat64 w f.
Definition WriteFloat32 (w : Writer) (f : Z) : Writer := writeFloat32 w f.
Definition WriteBool (w : Writer) (b : bool) : Writer := writeBool w b.
Definition WriteInt (w : Writer) (i : Z) : Writer := writeInt w i.
Definition WriteUint (w : Writer) (u : Z) : Writer := writeUint w u.
Definition WriteString (w : Writer) (s : string) : Writer := writeString w s.
Definition WriteBin (w : Writer) (b : list Z) : Writer := writeBin w b.
Definition WriteExt (w : Writer) (etype : Z) (data : list Z) : Writer :=
  writeExt w etype data.

(** The exported readers share one shape: call the unexported reader and,
    on [ErrBadTag] only, push the tag byte back (the result of [UnreadByte]
    is not looked at). *)
Definition unreadOnBadTag {A} (read : rd A) : rd A := fun r =>
  match read r with
  | (Err ErrBadTag, r') => (Err ErrBadTag, snd (UnreadByte r'))
  | res => res
  end.

Definition ReadFloat : rd Z := unreadOnBadTag readFloat.
Definition ReadFloat32 : rd Z := unreadOnBadTag readFloat32.
Definition ReadFloat64 : rd Z := unreadOnBadTag readFloat64.
Definition ReadInt : rd Z := unreadOnBadTag readInt.
Definition ReadUint : rd Z := unreadOnBadTag readUint.
Definition ReadString : rd string := unreadOnBadTag readString.
Definition ReadBool : rd bool := unreadOnBadTag readBool.
Definition ReadBin (b : list Z) : rd (list Z) := unreadOnBadTag (readBin b).

Definition ReadExt (b : list Z) : rd PackExt := fun r =>
  match readExt b r with
  | (Err e, r') =>
      (Err e, match e with ErrBadTag => snd (UnreadByte r') | _ => r' end)
  | (Ok (dat, etype), r') => (Ok {| EType := etype; Data := dat |}, r')
  end.

(** Push the tag byte back and hand over to a kind-specific reader, boxing
    its result: the body shared by the non-fixed cases of [ReadInterface]. *)
Definition reread {A} (t : MType) (box : A -> iface) (read : rd A)
  : rd (iface * MType) := fun r =>
  match UnreadByte r with
  | (Some e, r') => (Err e, r')
  | (None, r') =>
      match read r' with
      | (Ok a, r'') => (Ok (box a, t), r'')
      | (Err e, r'') => (Err e, r'')
      end
  end.

Definition box_ext (p : list Z * Z) : iface :=
  I_PackExtPtr (Some {| EType := snd p; Data := fst p |}).

(** [ReadInterface]: classify the leading byte, then decode. *)
Definition ReadInterface : rd (iface * MType) :=
  get! c := ReadByte in
  if Z.land c 0x80 =? 0 then rd_ret (I_int64 (signed 1 (Z.land c 0x7f)), Int)
  else if Z.land c 0xe0 =? 0xe0 then rd_ret (I_int64 (signed 1 c), Int)
  else if Z.land c 0xe0 =? 0xa0 then reread String I_string readString
  else if c =? mfalse then rd_ret (I_bool false, Bool)
  else if c =? mtrue then rd_ret (I_bool true, Bool)
  else if (c =? mint8) || (c =? mint16) || (c =? mint32) || (c =? mint64)
       then reread Int I_int64 readInt
  else if (c =? muint8) || (c =? muint16) || (c =? muint32) || (c =? muint64)
       then reread Uint I_uint64 readUint
  else if (c =? mfloat32) || (c =? mfloat64)
       then reread Float I_float64 readFloat
  else if (c =? mbin8) || (c =? mbin16) || (c =? mbin32)
       then reread Bin I_bytes (readBin [])
  else if (c =? mfixext1) || (c =? mfixext2) || (c =? mfixext4)
          || (c =? mfixext8) || (c =? mfixext16)
          || (c =? mext8) || (c =? mext16) || (c =? mext32)
       then reread Ext box_ext (readExt [])
  else if (c =? mstr8) || (c =? mstr16) || (c =? mstr32)
       then reread String I_string readString
  else rd_fail ErrTypeNotSupported.

(** ** [msg/schema.go] *)

(** The kind [MakeSchema] infers from an example value: its type switch. *)
Definition kindOf (kind : iface) : option MType :=
  match kind with
  | I_float32 _ | I_float64 _ => Some Float
  | I_uint _ | I_uint8 _ | I_uint16 _ | I_uint32 _ | I_uint64 _ => Some Uint
  | I_int _ | I_int8 _ | I_int16 _ | I_int32 _ | I_int64 _ => Some Int
  | I_bool _ => Some Bool
  | I_string _ => Some String
  | I_bytes _ => Some Bin
  | _ => None
  end.

Definition setName (n : string) (o : Object) : Object :=
  {| T := T o; Name := n |}.
Definition setT (t : MType) (o : Object) : Object :=
  {| T := t; Name := Name o |}.

Section MakeSchema.

(** The zero value of [msg.Type], with which [make([]Object, n)] fills the
    fresh slice; its declaration is not in the files at hand. *)
Variable zeroType : MType.

(** The loop of [MakeSchema] at index [i], over the examples left;
    [names[i]] panics when out of range. *)
Fixpoint MakeSchema_loop (names : list string) (i : nat) (types : list iface)
    (o : list Object) : outcome (option Schema * option error) :=
  match types with
  | [] => Normal (Some o, None)
  | kind :: rest =>
      match names !! i with
      | None => Panics
      | Some n =>
          let o := alter (setName n) i o in
          match kindOf kind with
          | Some t => MakeSchema_loop names (S i) rest (alter (setT t) i o)
          | None => Normal (None, Some ErrTypeNotSupported)
          end
      end
  end.

Definition MakeSchema (names : list string) (types : list iface)
  : outcome (option Schema * option error) :=
  if negb (length names =? length types)%nat
  then Normal (None, Some ErrBadArgs)
  else MakeSchema_loop names 0 types
         (replicate (length names) {| T := zeroType; Name := EmptyString |}).

End MakeSchema.

(** The scratch array [bs] of [DecodeToMap]. *)
Definition bs : list Z := replicate 16 0.

(** [DecodeToMap]: one iteration per field, storing under the field's name;
    the first fault returns at once.  A stored payload is recorded as it was
    read in its iteration. *)
Fixpoint DecodeToMap (s : Schema) (r : Reader) (m : gmap string iface)
  : option error * Reader * gmap string iface :=
  match s with
  | [] => (None, r, m)
  | o :: s' =>
      let n := Name o in
      match T o with
      | String =>
          match readString r with
          | (Err e, r') => (Some e, r', m)
          | (Ok ns, r') => DecodeToMap s' r' (<[n := I_string ns]> m)
          end
      | Int =>
          match readInt r with
          | (Err e, r') => (Some e, r', m)
          | (Ok ns, r') => DecodeToMap s' r' (<[n := I_int64 ns]> m)
          end
      | Uint =>
          match readUint r with
          | (Err e, r') => (Some e, r', m)
          | (Ok ns, r') => DecodeToMap s' r' (<[n := I_uint64 ns]> m)
          end
      | Float =>
          match readFloat r with
          | (Err e, r') => (Some e, r', m)
          | (Ok ns, r') => DecodeToMap s' r' (<[n := I_float64 ns]> m)
          end
      | Bin =>
          match readBin (take 16 bs) r with
          | (Err e, r') => (Some e, r', m)
          | (Ok dat, r') => DecodeToMap s' r' (<[n := I_bytes dat]> m)
          end
      | Ext =>
          match readExt (take 16 bs) r with
          | (Err e, r') => (Some e, r', m)
          | (Ok (dat, etype), r') =>
              DecodeToMap s' r'
                (<[n := I_PackExtPtr (Some {| EType := etype; Data := dat |})]> m)
          end
      | _ => (Some ErrIncorrectType, r, m)
      end
  end.

(** [encode]: one field. *)
Definition encode (v : iface) (o : Object) (w : Writer) : option error * Writer :=
  match T o with
  | Float =>
      match v with
      | I_float64 f => (None, writeFloat w f)
      | _ => (Some ErrIncorrectType, w)
      end
  | Uint =>
      match v with
      | I_uint64 i => (None, writeUint w i)
      | _ => (Some ErrIncorrectType, w)
      end
  | Int =>
      match v with
      | I_int64 i => (None, writeInt w i)
      | _ => (Some ErrIncorrectType, w)
      end
  | Bool =>
      match v with
      | I_bool b => (None, writeBool w b)
      | _ => (Some ErrIncorrectType, w)
      end
  | String =>
      match v with
      | I_string s => (None, writeString w s)
      | _ => (Some ErrIncorrectType, w)
      end
  | Bin =>
      match v with
      | I_bytes bs => (None, writeBin w bs)
      | _ => (Some ErrIncorrectType, w)
      end
  | _ => (Some ErrTypeNotSupported, w)
  end.

(** [Encode]: [for i, v := range a], indexing the schema at [i]; the index
    expression panics when [i] is out of range. *)
Fixpoint Encode_loop (s : Schema) (i : nat) (a : list iface) (w : Writer)
  : outcome (option error * Writer) :=
  match a with
  | [] => Normal (None, w)
  | v :: a' =>
      match s !! i with
      | None => Panics
      | Some o =>
          match encode v o w with
          | (Some e, w') => Normal (Some e, w')
          | (None, w') => Encode_loop s (S i) a' w'
          end
      end
  end.

Definition Encode (s : Schema) (a : list iface) (w : Writer)
  : outcome (option error * Writer) :=
  Encode_loop s 0 a w.

(** ** The older API: pointer-writing readers and [Write] *)

Module Legacy.

(** [Write]: the same switch as [WriteInterface], except that the [Ext]
    case asserts a [PackExt] value and that no case returns: control
    leaves the switch and reaches the closing [return]. *)
Definition Write (w : Writer) (v : iface) (t : MType) : option error * Writer :=
  let switch : option error * Writer :=
    match t with
    | String =>
        match v with
        | I_string s => (None, writeString w s)
        | _ => (Some ErrIncorrectType, w)
        end
    | Int =>
        match v with
        | I_int64 i => (None, writeInt w i)
        | _ => (Some ErrIncorrectType, w)
        end
    | Uint =>
        match v with
        | I_uint64 u => (None, writeUint w u)
        | _ => (Some ErrIncorrectType, w)
        end
    | Float =>
        match v with
        | I_float64 f => (None, writeFloat w f)
        | _ => (Some ErrIncorrectType, w)
        end
    | Bool =>
        match v with
        | I_bool t => (None, writeBool w t)
        | _ => (Some ErrIncorrectType, w)
        end
    | Bin =>
        match v with
        | I_bytes b => (None, writeBin w b)
        | _ => (Some ErrIncorrectType, w)
        end
    | Ext =>
        match v with
        | I_PackExt ext => (None, writeExt w (EType ext) (Data ext))
        | _ => (Some ErrIncorrectType, w)
        end
    | Invalid => (Some ErrTypeNotSupported, w)
    end in
  match switch with
  | (Some e, w') => (Some e, w')
  | (None, w') => (Some ErrTypeNotSupported, w')
  end.

(** Memory for the pointer arguments: a pointer is a location (or nil),
    the heap maps allocated locations to their contents. *)
Definition loc : Set := nat.

(** The shared body of [ReadFloat], [ReadInt], [ReadUint], [ReadString]
    and [ReadBool]: [g, err := readXxx(r)]; on a fault, push back on
    [ErrBadTag] and return it; otherwise [p = &g] moves the local [g] to a
    fresh cell and rebinds the parameter [p], which dies at the return. *)
Definition readInto {A} (read : rd A) (box : A -> iface)
    (r : Reader) (p : option loc) (h : gmap loc iface)
  : option error * Reader * gmap loc iface :=
  match read r with
  | (Err e, r') =>
      (Some e, match e with ErrBadTag => snd (UnreadByte r') | _ => r' end, h)
  | (Ok g, r') =>
      let lg := fresh (dom h) in
      let h' := <[lg := box g]> h in
      let p : option loc := Some lg in
      (None, r', h')
  end.

Definition ReadFloat := readInto readFloat I_float64.
Definition ReadInt := readInto readInt I_int64.
Definition ReadUint := readInto readUint I_uint64.
Definition ReadString := readInto readString I_string.
Definition ReadBool := readInto readBool I_bool.

Section Dynamic.

(** The older [readBin(r, b) error] and [readExt(r, b) (int8, error)] read
    into the caller's buffer and return no slice; they are not in the files
    at hand and are taken as they come. *)
Variable readBinInto : list Z -> rd unit.
Variable readExtInto : list Z -> rd Z.

(** Push the tag byte back and hand over to a kind-specific reader, boxing
    its result. *)
Definition reread {A} (box : A -> iface) (read : rd A) : rd iface := fun r =>
  match UnreadByte r with
  | (Some e, r') => (Err e, r')
  | (None, r') =>
      match read r' with
      | (Ok a, r'') => (Ok (box a), r'')
      | (Err e, r'') => (Err e, r'')
      end
  end.

(** [ReadInterface] of the older file: no [Type] is returned.  In the binary
    case [v] is [make([]byte, 0, 32)] and stays that slice header, the
    reader being handed a copy of it; in the extension case [Data] is such a
    slice. *)
Definition ReadInterface : rd iface :=
  get! c := ReadByte in
  if Z.land c 0x80 =? 0 then rd_ret (I_int64 (signed 1 (Z.land c 0x7f)))
  else if Z.land c 0xe0 =? 0xe0 then rd_ret (I_int64 (signed 1 c))
  else if Z.land c 0xe0 =? 0xa0 then reread I_string readString
  else if c =? mfalse then rd_ret (I_bool false)
  else if c =? mtrue then rd_ret (I_bool true)
  else if (c =? mint8) || (c =? mint16) || (c =? mint32) || (c =? mint64)
       then reread I_int64 readInt
  else if (c =? muint8) || (c =? muint16) || (c =? muint32) || (c =? muint64)
       then reread I_uint64 readUint
  else if (c =? mfloat32) || (c =? mfloat64)
       then reread I_float64 readFloat
  else if (c =? mbin8) || (c =? mbin16) || (c =? mbin32)
       then reread (fun _ : unit => I_bytes []) (readBinInto [])
  else if (c =? mfixext1) || (c =? mfixext2) || (c =? mfixext4)
          || (c =? mfixext8) || (c =? mfixext16)
          || (c =? mext8) || (c =? mext16) || (c =? mext32)
       then reread (fun etype : Z =>
                      I_PackExtPtr (Some {| EType := etype; Data := [] |}))
                   (readExtInto [])
  else if (c =? mstr8) || (c =? mstr16) || (c =? mstr32)
       then reread I_string readString
  else rd_fail ErrTypeNotSupported.

End Dynamic.

End Legacy.

(** * Statement vocabulary *)

(** The host representation each kind expects of a value handed to an
    encoder, as tabulated in the documentation of [WriteInterface]:
    [float64], [uint64], [int64], [bool], [string], [[]byte], [*PackExt]. *)
Definition hostMatches (t : MType) (v : iface) : bool :=
  match t, v with
  | Float, I_float64 _ | Uint, I_uint64 _ | Int, I_int64 _
  | Bool, I_bool _ | String, I_string _ | Bin, I_bytes _
  | Ext, I_PackExtPtr _ => true
  | _, _ => false
  end.

(** The kinds [MakeSchema] can produce. *)
Definition schemaKind (t : MType) : bool :=
  match t with
  | Float | Uint | Int | Bool | String | Bin => true
  | Ext | Invalid => false
  end.

(** The field [MakeSchema] builds from a name and an inferred kind. *)
Definition mkObject (n : string) (t : MType) : Object := {| T := t; Name := n |}.

(** Every field handed a value [encode] accepts. *)
Definition accepted (v : iface) (o : Object) : Prop := (encode v o []).1 = None.

(** What the accepted fields put on the wire, in order. *)
Definition wire (s : Schema) (a : list iface) : list Z :=
  concat (zip_with (fun v o => (encode v o []).2) a s).

(** The first [i] fields are of kinds [MakeSchema] produces and each is
    handed a value of its host representation. *)
Definition matchedBefore (i : nat) (s : Schema) (a : list iface) : Prop :=
  forall (j : nat) (o : Object) (v : iface),
    (j < i)%nat -> s !! j = Some o -> a !! j = Some v ->
    schemaKind (T o) = true /\ hostMatches (T o) v = true.

(** A typed reader with its result boxed as an interface value. *)
Definition boxed {A} (box : A -> iface) (read : rd A) : rd iface := fun r =>
  match read r with
  | (Ok a, r') => (Ok (box a), r')
  | (Err e, r') => (Err e, r')
  end.

(** [&PackExt{...}] as an interface value. *)
Definition box_PackExt (p : PackExt) : iface := I_PackExtPtr (Some p).

(** The bytes the writer of kind [t] puts on an empty sink for a value of
    that kind's host type; no writer applies otherwise. *)
Definition writeAs (t : MType) (v : iface) : option (list Z) :=
  match t, v with
  | Int, I_int64 i => Some (WriteInt [] i)
  | Uint, I_uint64 u => Some (WriteUint [] u)
  | Float, I_float64 f => Some (WriteFloat [] f)
  | Bool, I_bool b => Some (WriteBool [] b)
  | String, I_string s => Some (WriteString [] s)
  | Bin, I_bytes b => Some (WriteBin [] b)
  | Ext, I_PackExtPtr (Some p) => Some (WriteExt [] (EType p) (Data p))
  | _, _ => None
  end.

(** The exported reader of kind [t], its result boxed as [ReadInterface]
    boxes it; [Invalid] has no reader. *)
Definition ReadAs (t : MType) : option (rd iface) :=
  match t with
  | Int => Some (boxed I_int64 ReadInt)
  | Uint => Some (boxed I_uint64 ReadUint)
  | Float => Some (boxed I_float64 ReadFloat)
  | Bool => Some (boxed I_bool ReadBool)
  | String => Some (boxed I_string ReadString)
  | Bin => Some (boxed I_bytes (ReadBin []))
  | Ext => Some (boxed box_PackExt (ReadExt []))
  | Invalid => None
  end.

(** The same over the unexported readers. *)
Definition readKind (t : MType) : rd iface :=
  match t with
  | Int => boxed I_int64 readInt
  | Uint => boxed I_uint64 readUint
  | Float => boxed I_float64 readFloat
  | Bool => boxed I_bool readBool
  | String => boxed I_string readString
  | Bin => boxed I_bytes (readBin [])
  | Ext => boxed box_ext (readExt [])
  | Invalid => rd_fail ErrTypeNotSupported
  end.

(** Host values within the range of their Go type: 64-bit integers and
    float patterns, payloads whose length a 32-bit prefix can address, an
    8-bit signed extension type. *)
Definition legal (v : iface) : Prop :=
  match v with
  | I_int64 i => - 2 ^ 63 <= i < 2 ^ 63
  | I_uint64 u => 0 <= u < 2 ^ 64
  | I_float64 f => 0 <= f < 2 ^ 64
  | I_string s => zlen (string_bytes s) < 2 ^ 32
  | I_bytes b => zlen b < 2 ^ 32
  | I_PackExtPtr (Some p) => - 128 <= EType p < 128 /\ zlen (Data p) < 2 ^ 32
  | _ => True
  end.

(** Facts about a byte are checked on all 256 of them. *)
Definition all_bytes : list Z := Eval vm_compute in map Z.of_nat (seq 0 256).

(** The kinds [DecodeToMap] has a case for. *)
Definition decodable (t : MType) : bool :=
  match t with
  | String | Int | Uint | Float | Bin | Ext => true
  | Bool | Invalid => false
  end.

(** The source that holds, in field order, what the writer of each field's
    kind emits for its value. *)
Fixpoint streamOf (s : Schema) (vs : list iface) : list Z :=
  match s, vs with
  | o :: s', v :: vs' => default [] (writeAs (T o) v) ++ streamOf s' vs'
  | _, _ => []
  end.

(** The map after storing each value under its field's name, in order. *)
Fixpoint stored (s : Schema) (vs : list iface) (m : gmap string iface)
  : gmap string iface :=
  match s, vs with
  | o :: s', v :: vs' => stored s' vs' (<[Name o := v]> m)
  | _, _ => m
  end.

(** The kinds with a case both in [encode] and in [DecodeToMap] whose
    readers take no scratch buffer. *)
Definition scalarKind (t : MType) : bool :=
  match t with
  | Int | Uint | Float | String => true
  | _ => false
  end.

(** A source fault: the source ran out of bytes. *)
Definition sourceFault (e : error) : Prop := e = EOF \/ e = ErrUnexpectedEOF.

(** What the part of a reader after the tag byte may do: succeed having
    removed a prefix of the source, or fail because the source ran out. *)
Definition payloadReader {A} (c : rd A) : Prop :=
  forall r : Reader,
    match c r with
    | (Ok _, r') => exists used, pending r = used ++ pending r'
    | (Err e, _) => sourceFault e
    end.

(** What a whole reader may do: succeed having removed the tag byte and a
    payload from the front of the source, fail because the source ran out,
    or answer [ErrBadTag] having removed the tag byte only, which is then
    the byte a push-back restores. *)
Definition tagReader {A} (c : rd A) : Prop :=
  forall r : Reader,
    match c r with
    | (Ok _, r') => exists tag used, pending r = tag :: used ++ pending r'
    | (Err e, r') =>
        sourceFault e
        \/ (e = ErrBadTag
            /\ exists tag, pending r = tag :: pending r' /\ last r' = Some tag)
    end.

(** The leading bytes that introduce no kind of this format. *)
Definition unknownTag (c : Z) : Prop :=
  0x80 <= c <= 0x9f \/ c = 0xc0 \/ c = 0xc1 \/ 0xdc <= c <= 0xdf.

(** ** Proof tactics *)

Ltac decode_step :=
  cbn [DecodeToMap];
  match goal with
  | |- context [match T ?o with _ => _ end] => destruct (T o)
  end;
  repeat match goal with
  | |- context [match ?c ?r with _ => _ end] =>
      match type of (c r) with
      | (result _ * Reader)%type => destruct (c r) as [[?|?] ?]
      end
  | |- context [let '(_, _) := ?p in _] => is_var p; destruct p
  end.

Ltac zbool :=
  repeat match goal with
  | H : _ && _ = true |- _ => apply andb_true_iff in H as [? ?]
  | H : _ || _ = false |- _ => apply orb_false_iff in H as [? ?]
  | H : _ && _ = false |- _ =>
      rewrite andb_false_iff, ?Z.leb_gt, ?Z.ltb_ge, ?Z.eqb_neq in H
  | H : (_ <=? _) = true |- _ => apply Z.leb_le in H
  | H : (_ <=? _) = false |- _ => apply Z.leb_gt in H
  | H : (_ <? _) = true |- _ => apply Z.ltb_lt in H
  | H : (_ <? _) = false |- _ => apply Z.ltb_ge in H
  | H : (_ =? _) = true |- _ => apply Z.eqb_eq in H
  | H : (_ =? _) = false |- _ => apply Z.eqb_neq in H
  end.

Ltac norm_pow :=
  repeat match goal with
  | |- context [256 ^ Z.of_nat ?n] =>
      let v := eval vm_compute in (256 ^ Z.of_nat n) in
      change (256 ^ Z.of_nat n) with v
  | |- context [Z.pos ?p / 2] =>
      let v := eval vm_compute in (Z.pos p / 2) in
      change (Z.pos p / 2) with v
  end.

Ltac unfold_tags :=
  unfold mfalse, mtrue, mbin8, mbin16, mbin32, mext8, mext16, mext32,
    mfloat32, mfloat64, muint8, muint16, muint32, muint64, mint8, mint16,
    mint32, mint64, mfixext1, mfixext2, mfixext4, mfixext8, mfixext16,
    mstr8, mstr16, mstr32.

(** * Properties *)

(** ** [DecodeToMap] and the declared kind [Bool] *)

(** C1 (the code departs from the claim).  [DecodeToMap] has no case for
    [Bool]: a schema whose next field is declared [Bool] is rejected with
    [ErrIncorrectType] whatever the source holds, nothing is read and
    nothing is stored. *)
Theorem DecodeToMap_Bool_rejected :
  forall (n : string) (s' : Schema) (r : Reader) (m : gmap string iface),
    DecodeToMap ({| T := Bool; Name := n |} :: s') r m
    = (Some ErrIncorrectType, r, m).
Proof. intros n s' r m. reflexivity. Qed.

(** The failing input of C1, which [MakeSchema] itself produces: a schema
    with the single field [ok : Bool], and the source holding the byte for
    [true]. *)
Example DecodeToMap_Bool_failing_input :
  MakeSchema Invalid ["ok"%string] [I_bool true]
  = Normal (Some [{| T := Bool; Name := "ok" |}], None)
  /\ ReadBool {| pending := writeBool [] true; last := None |}
     = (Ok true, {| pending := []; last := Some mtrue |})
  /\ DecodeToMap [{| T := Bool; Name := "ok" |}]
       {| pending := writeBool [] true; last := None |} ∅
     = (Some ErrIncorrectType, {| pending := [mtrue]; last := None |}, ∅).
Proof. repeat split; reflexivity. Qed.

(** ** [Encode] and the declared kind [Ext] *)

(** C6 (the code departs from the claim).  [encode] has no case for [Ext]:
    an extension value supplied for a field declared [Ext] is answered with
    [ErrTypeNotSupported] and nothing is written, although [WriteInterface]
    writes the same value for the same kind. *)
Theorem Encode_Ext_not_supported :
  forall (n : string) (ext : PackExt) (w : Writer),
    Encode [{| T := Ext; Name := n |}] [I_PackExtPtr (Some ext)] w
    = Normal (Some ErrTypeNotSupported, w)
    /\ WriteInterface w (I_PackExtPtr (Some ext)) Ext
       = Normal (None, writeExt w (EType ext) (Data ext)).
Proof. intros n ext w. split; reflexivity. Qed.

Example Encode_Ext_failing_input :
  Encode [{| T := Ext; Name := "e" |}]
         [I_PackExtPtr (Some {| EType := 7; Data := [1; 2; 3] |})] []
  = Normal (Some ErrTypeNotSupported, []).
Proof. reflexivity. Qed.

(** ** The dispatch fault of [Write] and [WriteInterface] *)

(** [WriteInterface] does what the claim of C7 says: a supported kind with a
    value of its host type is written and nil returned (a nil [*PackExt]
    panics, as documented), and the dispatch fault is kept for an
    unsupported kind. *)
Lemma WriteInterface_supported (w : Writer) (v : iface) (t : MType) :
  hostMatches t v = true ->
  v <> I_PackExtPtr None ->
  exists w', WriteInterface w v t = Normal (None, w').
Proof.
  destruct t, v; simpl; intros H Hnil; try discriminate H; eauto.
  destruct p; [eauto | congruence].
Qed.

Lemma WriteInterface_dispatch_fault (w : Writer) (v : iface) (t : MType) (w' : Writer) :
  WriteInterface w v t = Normal (Some ErrTypeNotSupported, w') -> t = Invalid.
Proof.
  destruct t, v; simpl; try congruence; destruct p; congruence.
Qed.

(** C7 (the code departs from the claim).  The older [Write] never returns
    nil: after a successful write control reaches the closing
    [return ErrTypeNotSupported].  For a supported kind and a value of the
    matching type it writes exactly what [WriteInterface] writes (for [Ext]
    it takes the extension by value) and still reports the dispatch fault. *)
Theorem Legacy_Write_never_nil :
  forall (w : Writer) (v : iface) (t : MType),
    fst (Legacy.Write w v t) <> None
    /\ (t <> Ext -> forall w', WriteInterface w v t = Normal (None, w') ->
                   Legacy.Write w v t = (Some ErrTypeNotSupported, w'))
    /\ (forall ext, Legacy.Write w (I_PackExt ext) Ext
                    = (Some ErrTypeNotSupported, writeExt w (EType ext) (Data ext))).
Proof.
  intros w v t. split; [|split].
  - unfold Legacy.Write. destruct t, v; simpl; discriminate.
  - intros Ht w' H. unfold Legacy.Write.
    destruct t, v; simpl in *; try congruence;
      try (destruct p; congruence).
  - intros ext. reflexivity.
Qed.

Example Legacy_Write_failing_input :
  Legacy.Write [] (I_int64 5) Int = (Some ErrTypeNotSupported, [5])
  /\ WriteInterface [] (I_int64 5) Int = Normal (None, [5]).
Proof. split; reflexivity. Qed.

(** ** The pointer-writing readers *)

Lemma readInto_frame {A} (read : rd A) (box : A -> iface)
    (r : Reader) (p : option Legacy.loc) (h : gmap Legacy.loc iface)
    (l : Legacy.loc) (v : iface) :
  h !! l = Some v ->
  (Legacy.readInto read box r p h).2 !! l = Some v.
Proof.
  intros Hl. unfold Legacy.readInto.
  destruct (read r) as [[g|e] r']; simpl; [|exact Hl].
  rewrite lookup_insert_ne; [exact Hl|].
  intros Heq. pose proof (is_fresh (dom h)) as Hfresh.
  rewrite Heq in Hfresh. apply Hfresh, elem_of_dom. eauto.
Qed.

(** C8.  Whatever the reader state, and whether the call succeeds or
    faults, the cell a caller's pointer refers to holds the same value
    after [ReadFloat], [ReadInt], [ReadUint], [ReadString] and [ReadBool]
    of the older API as before: the decoded result goes to a fresh cell
    that only the callee's copy of the pointer names. *)
Theorem Legacy_read_pointee_unchanged :
  forall (r : Reader) (p : option Legacy.loc) (h : gmap Legacy.loc iface)
         (l : Legacy.loc) (v : iface),
    p = Some l ->
    h !! l = Some v ->
    (Legacy.ReadFloat r p h).2 !! l = Some v
    /\ (Legacy.ReadInt r p h).2 !! l = Some v
    /\ (Legacy.ReadUint r p h).2 !! l = Some v
    /\ (Legacy.ReadString r p h).2 !! l = Some v
    /\ (Legacy.ReadBool r p h).2 !! l = Some v.
Proof.
  intros r p h l v _ Hl.
  repeat split; apply readInto_frame; exact Hl.
Qed.

(** A successful call at a concrete state: the float [1.0] is decoded, the
    caller's cell still holds [0.0]. *)
Lemma Legacy_read_pointee_unchanged_witness :
  (Legacy.ReadFloat
     {| pending := writeFloat [] 0x3ff0000000000000; last := None |}
     (Some 0%nat) {[ 0%nat := I_float64 0 ]}).1.1 = None
  /\ (Legacy.ReadFloat
        {| pending := writeFloat [] 0x3ff0000000000000; last := None |}
        (Some 0%nat) {[ 0%nat := I_float64 0 ]}).2 !! 0%nat
     = Some (I_float64 0).
Proof.
  split; [reflexivity|].
  apply (Legacy_read_pointee_unchanged
           {| pending := writeFloat [] 0x3ff0000000000000; last := None |}
           (Some 0%nat) {[ 0%nat := I_float64 0 ]} 0%nat (I_float64 0));
    reflexivity.
Defined.

(** ** [MakeSchema] *)

Lemma MakeSchema_loop_spec (types : list iface) :
  forall (ndone nrest : list string) (done zs : list Object),
    length ndone = length done ->
    length nrest = length types ->
    length zs = length types ->
    MakeSchema_loop (ndone ++ nrest) (length done) types (done ++ zs)
    = match mapM kindOf types with
      | Some ts => Normal (Some (done ++ zip_with mkObject nrest ts), None)
      | None => Normal (None, Some ErrTypeNotSupported)
      end.
Proof.
  induction types as [|kind rest IH]; intros ndone nrest done zs Hd Hn Hz.
  - destruct zs; [|discriminate]. destruct nrest; [|discriminate].
    simpl. reflexivity.
  - destruct zs as [|z0 zs]; [discriminate|].
    destruct nrest as [|n nrest]; [discriminate|].
    simpl in Hn, Hz. injection Hn as Hn. injection Hz as Hz.
    cbn [MakeSchema_loop].
    rewrite <- Hd at 1. rewrite list_lookup_middle by reflexivity.
    destruct (kindOf kind) as [t|] eqn:Hk.
    + assert (Halt : forall f (x : Object) (l1 l2 : list Object),
                 alter f (length l1) (l1 ++ x :: l2) = l1 ++ f x :: l2).
      { intros f x l1 l2.
        replace (length l1) with (length l1 + 0)%nat at 1 by lia.
        rewrite alter_app_r. reflexivity. }
      rewrite Halt, Halt.
      specialize (IH (ndone ++ [n]) nrest (done ++ [setT t (setName n z0)]) zs).
      rewrite !length_app in IH. simpl in IH.
      rewrite <- !app_assoc in IH. simpl in IH.
      replace (S (length done)) with (length done + 1)%nat by lia.
      rewrite IH by lia.
      cbn [mapM]. rewrite Hk.
      destruct (mapM kindOf rest); simpl; [rewrite <- app_assoc|]; reflexivity.
    + cbn [mapM]. rewrite Hk. reflexivity.
Qed.


(** The inference table of [MakeSchema]. *)
Example kindOf_table :
  kindOf (I_float32 0) = Some Float /\ kindOf (I_float64 0) = Some Float
  /\ kindOf (I_uint 0) = Some Uint /\ kindOf (I_uint8 0) = Some Uint
  /\ kindOf (I_uint16 0) = Some Uint /\ kindOf (I_uint32 0) = Some Uint
  /\ kindOf (I_uint64 0) = Some Uint
  /\ kindOf (I_int 0) = Some Int /\ kindOf (I_int8 0) = Some Int
  /\ kindOf (I_int16 0) = Some Int /\ kindOf (I_int32 0) = Some Int
  /\ kindOf (I_int64 0) = Some Int
  /\ kindOf (I_bool true) = Some Bool
  /\ kindOf (I_string "") = Some String
  /\ kindOf (I_bytes []) = Some Bin
  /\ kindOf I_nil = None
  /\ kindOf (I_PackExtPtr None) = None
  /\ kindOf (I_other "complex128") = None.
Proof. repeat split. Qed.


(** ** [Encode] *)

(** The writers only append to the sink. *)
Lemma writeInt_app w i : writeInt w i = w ++ writeInt [] i.
Proof. unfold writeInt, WriteByte, WriteBytes. repeat case_match; reflexivity. Qed.

Lemma writeUint_app w u : writeUint w u = w ++ writeUint [] u.
Proof. unfold writeUint, WriteBytes. repeat case_match; reflexivity. Qed.

Lemma writeFloat_app w f : writeFloat w f = w ++ writeFloat [] f.
Proof. reflexivity. Qed.

Lemma writeBool_app w b : writeBool w b = w ++ writeBool [] b.
Proof. reflexivity. Qed.

Lemma writeString_app w s : writeString w s = w ++ writeString [] s.
Proof. unfold writeString, WriteBytes. repeat case_match; reflexivity. Qed.

Lemma writeBin_app w p : writeBin w p = w ++ writeBin [] p.
Proof. unfold writeBin, WriteBytes. repeat case_match; reflexivity. Qed.

Lemma writeExt_app w t d : writeExt w t d = w ++ writeExt [] t d.
Proof. unfold writeExt, WriteBytes. repeat case_match; reflexivity. Qed.

Lemma encode_app (v : iface) (o : Object) (w : Writer) :
  encode v o w = ((encode v o []).1, w ++ (encode v o []).2).
Proof.
  unfold encode. destruct (T o), v; simpl; rewrite ?app_nil_r; try reflexivity.
  - f_equal. apply writeInt_app.
  - f_equal. apply writeUint_app.
  - f_equal. apply writeString_app.
  - f_equal. apply writeBin_app.
Qed.

Lemma encode_matches (v : iface) (o : Object) (w : Writer) :
  schemaKind (T o) = true -> hostMatches (T o) v = true ->
  (encode v o w).1 = None.
Proof.
  unfold encode. destruct (T o), v; simpl; intros; try discriminate; reflexivity.
Qed.

Lemma encode_mismatch (v : iface) (o : Object) (w : Writer) :
  schemaKind (T o) = true -> hostMatches (T o) v = false ->
  encode v o w = (Some ErrIncorrectType, w).
Proof.
  unfold encode. destruct (T o), v; simpl; intros; try discriminate; reflexivity.
Qed.

(** The loop only looks at the schema from index [i] on. *)
Lemma Encode_loop_shift (s1 s2 : Schema) (a : list iface) :
  forall (k : nat) (w : Writer),
    Encode_loop (s1 ++ s2) (length s1 + k) a w = Encode_loop s2 k a w.
Proof.
  induction a as [|v a IH]; intros k w; cbn [Encode_loop]; [reflexivity|].
  rewrite lookup_app_r by lia.
  replace (length s1 + k - length s1)%nat with k by lia.
  destruct (s2 !! k) as [o|]; [|reflexivity].
  destruct (encode v o w) as [[e|] w']; [reflexivity|].
  replace (S (length s1 + k)) with (length s1 + S k)%nat by lia.
  apply IH.
Qed.

Lemma Encode_cons (o : Object) (s : Schema) (v : iface) (a : list iface) (w : Writer) :
  Encode (o :: s) (v :: a) w
  = match encode v o w with
    | (Some e, w') => Normal (Some e, w')
    | (None, w') => Encode s a w'
    end.
Proof.
  unfold Encode. simpl.
  destruct (encode v o w) as [[e|] w']; [reflexivity|].
  apply (Encode_loop_shift [o] s a 0 w').
Qed.

Lemma Encode_nil_l (v : iface) (a : list iface) (w : Writer) :
  Encode [] (v :: a) w = Panics.
Proof. reflexivity. Qed.

Lemma Encode_nil_r (s : Schema) (w : Writer) : Encode s [] w = Normal (None, w).
Proof. reflexivity. Qed.

Lemma accepted_encode (v : iface) (o : Object) (w : Writer) :
  accepted v o -> encode v o w = (None, w ++ (encode v o []).2).
Proof. intros H. rewrite encode_app. unfold accepted in H. rewrite H. reflexivity. Qed.

Lemma Encode_accepted (s : Schema) :
  forall (a : list iface) (w : Writer),
    Forall2 accepted a s -> Encode s a w = Normal (None, w ++ wire s a).
Proof.
  induction s as [|o s IH]; intros a w H; inversion H; subst.
  - unfold wire. simpl. rewrite app_nil_r. reflexivity.
  - rewrite Encode_cons, accepted_encode by assumption.
    rewrite IH by assumption. unfold wire. simpl. rewrite app_assoc. reflexivity.
Qed.




Lemma matchedBefore_accepted (i : nat) (s : Schema) (a : list iface) :
  (i <= length s)%nat -> (i <= length a)%nat ->
  matchedBefore i s a ->
  Forall2 accepted (take i a) (take i s).
Proof.
  intros Hs Ha Hm. apply Forall2_same_length_lookup. split.
  - rewrite !length_take. lia.
  - intros j v o Hv Ho.
    apply lookup_take_Some in Hv as [Hv Hj].
    apply lookup_take_Some in Ho as [Ho _].
    destruct (Hm j o v Hj Ho Hv) as [Hk Hh].
    exact (encode_matches v o [] Hk Hh).
Qed.

Lemma Encode_app (s1 s2 : Schema) (a1 a2 : list iface) (w : Writer) :
  Forall2 accepted a1 s1 ->
  Encode (s1 ++ s2) (a1 ++ a2) w = Encode s2 a2 (w ++ wire s1 a1).
Proof.
  intros H. revert w. induction H as [|v o a1 s1 Hvo H IH]; intros w.
  - unfold wire. simpl. rewrite app_nil_r. reflexivity.
  - simpl. rewrite Encode_cons, accepted_encode by assumption.
    rewrite IH. unfold wire. simpl. rewrite app_assoc. reflexivity.
Qed.

(** C2 (as amended).  Let [len(a) = len(s)], let fields [0..i-1] be of the
    kinds [Float], [Uint], [Int], [Bool], [String], [Bin] with values of the
    matching host type, and let [a[i]] be the first value that is not the
    host representation of its field's kind.  If that kind is one of the six
    above, [Encode] returns [ErrIncorrectType]; if it is [Invalid], the
    dispatch fault [ErrTypeNotSupported].  Either way the sink holds what it
    held before followed by exactly the bytes of fields [0..i-1] (what
    [Encode] of those fields alone writes), nothing of field [i] or later,
    and nothing is rolled back. *)
Theorem Encode_first_mismatch :
  forall (s : Schema) (a : list iface) (w : Writer)
         (i : nat) (o : Object) (v : iface),
    length a = length s ->
    s !! i = Some o ->
    a !! i = Some v ->
    matchedBefore i s a ->
    hostMatches (T o) v = false ->
    T o <> Ext ->
    Encode (take i s) (take i a) w = Normal (None, w ++ wire (take i s) (take i a))
    /\ Encode s a w
       = Normal (Some (match T o with
                       | Invalid => ErrTypeNotSupported
                       | _ => ErrIncorrectType
                       end),
                 w ++ wire (take i s) (take i a)).
Proof.
  intros s a w i o v Hlen Ho Hv Hm Hmis Hext.
  pose proof (lookup_lt_Some _ _ _ Ho) as Hi.
  assert (Hacc : Forall2 accepted (take i a) (take i s)).
  { apply matchedBefore_accepted; [lia | lia | exact Hm]. }
  split; [apply Encode_accepted; exact Hacc|].
  rewrite <- (take_drop i s) at 1. rewrite <- (take_drop i a) at 1.
  rewrite Encode_app by exact Hacc.
  rewrite (drop_S _ _ _ Ho), (drop_S _ _ _ Hv), Encode_cons.
  destruct (T o) eqn:Hk; try congruence;
    try (rewrite encode_mismatch; [reflexivity | rewrite Hk; reflexivity
                                  | rewrite Hk; exact Hmis]).
  unfold encode. rewrite Hk. reflexivity.
Qed.

Lemma Encode_first_mismatch_witness :
  Encode [{| T := Int; Name := "n" |}; {| T := String; Name := "s" |};
          {| T := Bool; Name := "b" |}]
         [I_int64 10; I_int64 11; I_bool true] [0xc3]
  = Normal (Some ErrIncorrectType, [0xc3; 10]).
Proof.
  refine (proj2 (Encode_first_mismatch
           [{| T := Int; Name := "n" |}; {| T := String; Name := "s" |};
            {| T := Bool; Name := "b" |}]
           [I_int64 10; I_int64 11; I_bool true] [0xc3]
           1%nat {| T := String; Name := "s" |} (I_int64 11)
           eq_refl eq_refl eq_refl _ eq_refl _)).
  - intros j o v Hj Ho Hv. destruct j as [|j]; [|lia].
    injection Ho as <-. injection Hv as <-. split; reflexivity.
  - discriminate.
Defined.

(** The claim as first stated fails on a field of kind [Invalid]: the value
    is not the host representation of its kind, and the fault is the
    dispatch fault, not [ErrIncorrectType]. *)
Lemma Encode_first_mismatch_counterexample :
  length [I_int64 0] = length [{| T := Invalid; Name := "x" |}]
  /\ hostMatches Invalid (I_int64 0) = false
  /\ Encode [{| T := Invalid; Name := "x" |}] [I_int64 0] []
     = Normal (Some ErrTypeNotSupported, [])
  /\ Encode [{| T := Invalid; Name := "x" |}] [I_int64 0] []
     <> Normal (Some ErrIncorrectType, []).
Proof. repeat split; discriminate. Qed.



(** ** [DecodeToMap]: what a fault leaves in the map *)



(** Whatever the outcome, the map only gains entries, under names of the
    schema, and keeps every other entry as it was. *)
Lemma DecodeToMap_frame (s : Schema) :
  forall (r r' : Reader) (m m' : gmap string iface) (e : option error),
    DecodeToMap s r m = (e, r', m') ->
    forall k : string, k ∉ (Name <$> s) -> m' !! k = m !! k.
Proof.
  induction s as [|o s IH]; intros r r' m m' e H k Hk.
  - injection H as _ _ <-. reflexivity.
  - rewrite fmap_cons in Hk. apply not_elem_of_cons in Hk as [Hne Hk].
    revert H. decode_step; intros H;
      try (injection H as _ _ <-; reflexivity);
      (etransitivity; [exact (IH _ _ _ _ _ H k Hk)|]);
      apply lookup_insert_ne; congruence.
Qed.

(** A decode without fault has stored an entry under every name. *)
Lemma DecodeToMap_dom (s : Schema) :
  forall (r r' : Reader) (m m' : gmap string iface),
    DecodeToMap s r m = (None, r', m') ->
    dom m' = dom m ∪ list_to_set (Name <$> s).
Proof.
  induction s as [|o s IH]; intros r r' m m' H.
  - inversion H; subst. simpl. rewrite union_empty_r_L. reflexivity.
  - revert H. decode_step; intros H; try discriminate H;
      rewrite (IH _ _ _ _ H), dom_insert_L, fmap_cons; simpl;
      generalize (dom m) (list_to_set (Name <$> s) : gset string);
      generalize (Name o); clear; intros k X Y;
      rewrite (union_comm_L {[k]} X), <- union_assoc_L; reflexivity.
Qed.



(** ** Wire-level facts *)

Lemma length_be_encode (n : nat) : forall v, length (be_encode n v) = n.
Proof.
  induction n as [|n IH]; intros v; simpl; [reflexivity|].
  rewrite length_app, IH. simpl. lia.
Qed.

Lemma be_decode_snoc (p : list Z) (b : Z) :
  be_decode (p ++ [b]) = be_decode p * 256 + b.
Proof. unfold be_decode. rewrite fold_left_app. reflexivity. Qed.

Lemma be_decode_encode (n : nat) :
  forall v, be_decode (be_encode n v) = v mod 256 ^ Z.of_nat n.
Proof.
  induction n as [|n IH]; intros v.
  - simpl. rewrite Z.mod_1_r. reflexivity.
  - cbn [be_encode]. rewrite be_decode_snoc, IH.
    rewrite Nat2Z.inj_succ, Z.pow_succ_r by lia.
    rewrite Z.rem_mul_r by lia. lia.
Qed.

Lemma be_decode_encode_small (n : nat) (v : Z) :
  0 <= v < 256 ^ Z.of_nat n -> be_decode (be_encode n v) = v.
Proof. intros H. rewrite be_decode_encode. apply Z.mod_small, H. Qed.

Lemma signed_wrap (n : nat) (i : Z) :
  (0 < n)%nat ->
  - (256 ^ Z.of_nat n / 2) <= i < 256 ^ Z.of_nat n / 2 ->
  signed n (i mod 256 ^ Z.of_nat n) = i.
Proof.
  intros Hn Hi. unfold signed. cbv zeta.
  set (m := 256 ^ Z.of_nat n) in *.
  assert (Hm : m = 2 * (m / 2) /\ 0 < m).
  { subst m. destruct n as [|n]; [lia|].
    rewrite Nat2Z.inj_succ, Z.pow_succ_r by lia.
    assert (0 < 256 ^ Z.of_nat n) by (apply Z.pow_pos_nonneg; lia).
    split; [|lia].
    replace (256 * 256 ^ Z.of_nat n) with (128 * 256 ^ Z.of_nat n * 2) by lia.
    rewrite Z.div_mul by lia. lia. }
  destruct Hm as [Hm Hpos].
  rewrite Z.mod_mod by lia.
  destruct (Z.leb_spec 0 i) as [Hi0|Hi0].
  - rewrite Z.mod_small by lia.
    destruct (Z.ltb_spec i (m / 2)); lia.
  - assert (Hw : i mod m = i + m).
    { rewrite <- (Z.mod_add i 1 m) by lia.
      replace (i + 1 * m) with (i + m) by lia. apply Z.mod_small. lia. }
    rewrite Hw. destruct (Z.ltb_spec (i + m) (m / 2)); lia.
Qed.

Lemma string_bytes_roundtrip (s : string) : bytes_string (string_bytes s) = s.
Proof.
  unfold bytes_string, string_bytes. rewrite map_map.
  rewrite (map_ext _ (fun c => c)).
  - rewrite map_id. apply string_of_list_ascii_of_string.
  - intros c. rewrite N2Z.id. apply ascii_N_embedding.
Qed.

(** The byte source on a known prefix. *)
Lemma ReadByte_cons (c : Z) (tl : list Z) (l : option Z) :
  ReadByte {| pending := c :: tl; last := l |}
  = (Ok c, {| pending := tl; last := Some c |}).
Proof. reflexivity. Qed.

Lemma ReadFull_app (n : nat) (p rest : list Z) (l : option Z) :
  length p = n ->
  ReadFull n {| pending := p ++ rest; last := l |}
  = (Ok p, {| pending := rest; last := None |}).
Proof.
  intros <-. unfold ReadFull. cbn [pending].
  rewrite length_app.
  destruct (Nat.leb_spec (length p) (length p + length rest)) as [_|H]; [|lia].
  rewrite take_app_length, drop_app_length. reflexivity.
Qed.

Lemma ReadFull_zlen (n : Z) (p rest : list Z) (l : option Z) :
  zlen p = n ->
  ReadFull (Z.to_nat n) {| pending := p ++ rest; last := l |}
  = (Ok p, {| pending := rest; last := None |}).
Proof. intros <-. apply ReadFull_app. unfold zlen. lia. Qed.

Lemma readField_app (n : nat) (v : Z) (rest : list Z) (l : option Z) :
  readField n {| pending := be_encode n v ++ rest; last := l |}
  = (Ok (v mod 256 ^ Z.of_nat n), {| pending := rest; last := None |}).
Proof.
  unfold readField, rd_bind.
  rewrite ReadFull_app by apply length_be_encode.
  unfold rd_ret. rewrite be_decode_encode. reflexivity.
Qed.

Lemma readField_small (n : nat) (v : Z) (rest : list Z) (l : option Z) :
  0 <= v < 256 ^ Z.of_nat n ->
  readField n {| pending := be_encode n v ++ rest; last := l |}
  = (Ok v, {| pending := rest; last := None |}).
Proof. intros H. rewrite readField_app, Z.mod_small by exact H. reflexivity. Qed.

Lemma all_bytes_In (c : Z) : 0 <= c < 256 -> In c all_bytes.
Proof.
  intros Hc. change all_bytes with (map Z.of_nat (seq 0 256)).
  apply in_map_iff. exists (Z.to_nat c). split; [lia|].
  apply in_seq. lia.
Qed.

Lemma byte_forall (P : Z -> Prop) :
  List.Forall P all_bytes -> forall c, 0 <= c < 256 -> P c.
Proof.
  intros H c Hc. rewrite List.Forall_forall in H. apply H, all_bytes_In, Hc.
Qed.

Lemma byte_forallb (f : Z -> bool) :
  forallb f all_bytes = true -> forall c, 0 <= c < 256 -> f c = true.
Proof.
  intros H c Hc. rewrite forallb_forall in H. apply H, all_bytes_In, Hc.
Qed.

Ltac each_byte tac :=
  match goal with
  | |- forall c, 0 <= c < 256 -> @?P c => apply (byte_forall P)
  end;
  unfold all_bytes;
  repeat (apply List.Forall_cons; [tac|]); apply List.Forall_nil.


Lemma fixint_bits (c : Z) :
  0 <= c < 128 -> (Z.land c 0x80 =? 0) = true /\ Z.land c 0x7f = c.
Proof.
  intros Hc.
  assert (H : (c <? 128) = true) by (apply Z.ltb_lt; lia).
  pose proof (byte_forallb
    (fun c => implb (c <? 128) ((Z.land c 0x80 =? 0) && (Z.land c 0x7f =? c)))
    eq_refl c ltac:(lia)) as Hb.
  cbv beta in Hb. rewrite H in Hb. simpl in Hb.
  apply andb_true_iff in Hb as [H1 H2]. apply Z.eqb_eq in H2. auto.
Qed.

Lemma nfixint_bits (c : Z) :
  224 <= c < 256 ->
  (Z.land c 0x80 =? 0) = false /\ (Z.land c 0xe0 =? 0xe0) = true.
Proof.
  intros Hc.
  assert (H : (224 <=? c) = true) by (apply Z.leb_le; lia).
  pose proof (byte_forallb
    (fun c => implb (224 <=? c)
                (negb (Z.land c 0x80 =? 0) && (Z.land c 0xe0 =? 0xe0)))
    eq_refl c ltac:(lia)) as Hb.
  cbv beta in Hb. rewrite H in Hb. simpl in Hb.
  apply andb_true_iff in Hb as [H1 H2]. apply negb_true_iff in H1. auto.
Qed.

Lemma fixstr_bits (n : Z) :
  0 <= n < 32 ->
  0 <= Z.lor 0xa0 n < 256
  /\ (Z.land (Z.lor 0xa0 n) 0xe0 =? 0xa0) = true
  /\ Z.land (Z.lor 0xa0 n) 0x1f = n.
Proof.
  intros Hn.
  assert (H : (n <? 32) = true) by (apply Z.ltb_lt; lia).
  pose proof (byte_forallb
    (fun n => implb (n <? 32)
                ((0 <=? Z.lor 0xa0 n) && (Z.lor 0xa0 n <? 256)
                 && (Z.land (Z.lor 0xa0 n) 0xe0 =? 0xa0)
                 && (Z.land (Z.lor 0xa0 n) 0x1f =? n)))
    eq_refl n ltac:(lia)) as Hb.
  cbv beta in Hb. rewrite H in Hb. simpl in Hb.
  repeat (apply andb_true_iff in Hb as [Hb ?]). apply Z.leb_le in Hb.
  repeat split; try assumption; zbool; assumption.
Qed.

Lemma zlen_nonneg {A} (l : list A) : 0 <= zlen l.
Proof. unfold zlen. lia. Qed.

Lemma signed_byte_low (c : Z) : 0 <= c < 128 -> signed 1 c = c.
Proof.
  intros Hc. unfold signed. norm_pow. cbv zeta.
  assert (Hmod : c mod 256 = c) by (apply Z.mod_small; lia).
  rewrite Hmod. norm_pow. destruct (Z.ltb_spec c 128); lia.
Qed.

Lemma signed_byte_high (c : Z) : 128 <= c < 256 -> signed 1 c = c - 256.
Proof.
  intros Hc. unfold signed. norm_pow. cbv zeta.
  assert (Hmod : c mod 256 = c) by (apply Z.mod_small; lia).
  rewrite Hmod. norm_pow. destruct (Z.ltb_spec c 128); lia.
Qed.

(** ** Round trips of the scalar codec *)

Opaque be_encode be_decode readField ReadFull signed string_bytes bytes_string
       float32_to_float64 zlen.

Lemma readInt_writeInt (i : Z) (rest : list Z) (l : option Z) :
  - 2 ^ 63 <= i < 2 ^ 63 ->
  exists l',
    readInt {| pending := writeInt [] i ++ rest; last := l |}
    = (Ok i, {| pending := rest; last := l' |}).
Proof.
  intros Hi. unfold writeInt, WriteByte, WriteBytes.
  repeat case_match; zbool; simpl app; unfold readInt, rd_bind;
    rewrite ReadByte_cons.
  - destruct (fixint_bits i ltac:(lia)) as [-> ->]. eexists. reflexivity.
  - destruct (nfixint_bits (i + 256) ltac:(lia)) as [-> ->].
    rewrite signed_byte_high by lia.
    replace (i + 256 - 256) with i by lia. eexists. reflexivity.
  - simpl. rewrite readField_app. unfold rd_ret.
    rewrite signed_wrap by (norm_pow; lia). eexists. reflexivity.
  - simpl. rewrite readField_app. unfold rd_ret.
    rewrite signed_wrap by (norm_pow; lia). eexists. reflexivity.
  - simpl. rewrite readField_app. unfold rd_ret.
    rewrite signed_wrap by (norm_pow; lia). eexists. reflexivity.
  - simpl. rewrite readField_app. unfold rd_ret.
    rewrite signed_wrap by (norm_pow; lia). eexists. reflexivity.
Qed.

Lemma readUint_writeUint (u : Z) (rest : list Z) (l : option Z) :
  0 <= u < 2 ^ 64 ->
  readUint {| pending := writeUint [] u ++ rest; last := l |}
  = (Ok u, {| pending := rest; last := None |}).
Proof.
  intros Hu. unfold writeUint, WriteBytes.
  repeat case_match; zbool; simpl app; unfold readUint, rd_bind;
    rewrite ReadByte_cons; simpl;
    rewrite readField_small by (norm_pow; lia); reflexivity.
Qed.

Lemma readFloat_writeFloat (f : Z) (rest : list Z) (l : option Z) :
  0 <= f < 2 ^ 64 ->
  readFloat {| pending := writeFloat [] f ++ rest; last := l |}
  = (Ok f, {| pending := rest; last := None |}).
Proof.
  intros Hf. unfold writeFloat, writeFloat64, WriteBytes.
  simpl app. unfold readFloat, rd_bind. rewrite ReadByte_cons. simpl.
  rewrite readField_small by (norm_pow; lia). reflexivity.
Qed.

Lemma readBool_writeBool (b : bool) (rest : list Z) (l : option Z) :
  readBool {| pending := writeBool [] b ++ rest; last := l |}
  = (Ok b, {| pending := rest;
              last := Some (if b then mtrue else mfalse) |}).
Proof. destruct b; reflexivity. Qed.

Lemma readString_writeString (s : string) (rest : list Z) (l : option Z) :
  zlen (string_bytes s) < 2 ^ 32 ->
  readString {| pending := writeString [] s ++ rest; last := l |}
  = (Ok s, {| pending := rest; last := None |}).
Proof.
  intros Hs. pose proof (zlen_nonneg (string_bytes s)) as H0.
  unfold writeString, WriteBytes. cbv zeta.
  repeat case_match; zbool; simpl app; unfold readString, rd_bind;
    rewrite ReadByte_cons.
  - destruct (fixstr_bits (zlen (string_bytes s)) ltac:(lia)) as (_ & -> & ->).
    unfold rd_ret. rewrite ReadFull_zlen by reflexivity.
    rewrite string_bytes_roundtrip. reflexivity.
  - simpl. rewrite <- app_assoc, readField_small by (norm_pow; lia).
    unfold rd_ret. rewrite ReadFull_zlen by reflexivity.
    rewrite string_bytes_roundtrip. reflexivity.
  - simpl. rewrite <- app_assoc, readField_small by (norm_pow; lia).
    unfold rd_ret. rewrite ReadFull_zlen by reflexivity.
    rewrite string_bytes_roundtrip. reflexivity.
  - simpl. rewrite <- app_assoc, readField_small by (norm_pow; lia).
    unfold rd_ret. rewrite ReadFull_zlen by reflexivity.
    rewrite string_bytes_roundtrip. reflexivity.
Qed.

Lemma readBin_writeBin (p b : list Z) (rest : list Z) (l : option Z) :
  zlen p < 2 ^ 32 ->
  readBin b {| pending := writeBin [] p ++ rest; last := l |}
  = (Ok p, {| pending := rest; last := None |}).
Proof.
  intros Hp. pose proof (zlen_nonneg p) as H0.
  unfold writeBin, WriteBytes. cbv zeta.
  repeat case_match; zbool; simpl app; unfold readBin, rd_bind;
    rewrite ReadByte_cons; simpl;
    rewrite <- app_assoc, readField_small by (norm_pow; lia);
    rewrite ReadFull_zlen by reflexivity; reflexivity.
Qed.

Lemma readExt_writeExt (etype : Z) (data b : list Z) (rest : list Z) (l : option Z) :
  - 128 <= etype < 128 ->
  zlen data < 2 ^ 32 ->
  readExt b {| pending := writeExt [] etype data ++ rest; last := l |}
  = (Ok (data, etype), {| pending := rest; last := None |}).
Proof.
  intros Ht Hd. pose proof (zlen_nonneg data) as H0.
  unfold writeExt, WriteBytes. cbv zeta.
  repeat case_match; zbool; simpl app; unfold readExt, rd_bind;
    rewrite ReadByte_cons; simpl; rewrite <- ?app_assoc;
    rewrite ?readField_small by (norm_pow; lia);
    unfold rd_ret; rewrite readField_app;
    rewrite signed_wrap by (norm_pow; lia);
    match goal with
    | H : zlen data = ?n |- _ => rewrite (ReadFull_zlen n) by exact H
    | _ => rewrite ReadFull_zlen by reflexivity
    end; reflexivity.
Qed.

Transparent be_encode be_decode readField ReadFull signed string_bytes
            bytes_string float32_to_float64 zlen.

(** ** Kind-indexed readers and writers *)

Lemma writeAs_WriteInterface (t : MType) (v : iface) (out : list Z) :
  writeAs t v = Some out <-> WriteInterface [] v t = Normal (None, out).
Proof.
  unfold writeAs, WriteInt, WriteUint, WriteFloat, WriteBool, WriteString,
    WriteBin, WriteExt.
  destruct t, v; simpl; try (split; congruence);
    destruct p; simpl; split; congruence.
Qed.

Lemma ReadAs_readKind (t : MType) (read : rd iface) (r : Reader) :
  ReadAs t = Some read ->
  read r = match readKind t r with
           | (Err ErrBadTag, r') => (Err ErrBadTag, snd (UnreadByte r'))
           | res => res
           end.
Proof.
  destruct t; simpl; intros H; try discriminate H; injection H as <-;
    unfold boxed, ReadInt, ReadUint, ReadFloat, ReadBool, ReadString, ReadBin,
      ReadExt, unreadOnBadTag;
    match goal with
    | |- context [match ?c r with _ => _ end] =>
        destruct (c r) as [[a|[]] r']
    end; try reflexivity.
  destruct a; reflexivity.
Qed.

(** *** The tag byte decides *)

Lemma tagType_fixint (c : Z) : 0 <= c < 128 -> tagType c = Int.
Proof.
  intros Hc. unfold tagType.
  destruct (fixint_bits c Hc) as [-> _]. reflexivity.
Qed.

Lemma tagType_nfixint (c : Z) : 224 <= c < 256 -> tagType c = Int.
Proof.
  intros Hc. unfold tagType.
  destruct (nfixint_bits c Hc) as [-> ->]. reflexivity.
Qed.

Lemma tagType_fixstr (n : Z) : 0 <= n < 32 -> tagType (Z.lor 0xa0 n) = String.
Proof.
  intros Hn.
  assert (H : (n <? 32) = true) by (apply Z.ltb_lt; lia).
  pose proof (byte_forallb
    (fun n => implb (n <? 32) (bool_decide (tagType (Z.lor 0xa0 n) = String)))
    eq_refl n ltac:(lia)) as Hb.
  cbv beta in Hb. rewrite H in Hb. simpl in Hb.
  apply bool_decide_eq_true in Hb. exact Hb.
Qed.

(** A reader of kind [A] facing a tag of another kind consumes that byte
    and answers [ErrBadTag]. *)
Lemma readKind_bad_tag :
  forall c, 0 <= c < 256 ->
    forall (A : MType) (tl : list Z) (l : option Z),
      A <> Invalid -> tagType c <> A ->
      readKind A {| pending := c :: tl; last := l |}
      = (Err ErrBadTag, {| pending := tl; last := Some c |}).
Proof.
  each_byte ltac:(intros A tl l HA Ht; destruct A;
    first [ reflexivity
          | exfalso; apply Ht; reflexivity
          | exfalso; apply HA; reflexivity ]).
Qed.

Lemma reread_boxed {A} (K : MType) (box : A -> iface) (read : rd A)
    (c : Z) (tl : list Z) :
  reread K box read {| pending := tl; last := Some c |}
  = match boxed box read {| pending := c :: tl; last := None |} with
    | (Ok v, r') => (Ok (v, K), r')
    | (Err e, r') => (Err e, r')
    end.
Proof.
  unfold reread, boxed, UnreadByte. cbn [last pending].
  destruct (read _) as [[a|e] r']; reflexivity.
Qed.

(** [ReadInterface] is classification by [tagType] followed by the reader
    of the kind found, on the source as it was before the tag was read. *)
Lemma ReadInterface_dispatch :
  forall c, 0 <= c < 256 ->
    forall (tl : list Z) (l : option Z),
      ReadInterface {| pending := c :: tl; last := l |}
      = match tagType c with
        | Invalid =>
            (Err ErrTypeNotSupported, {| pending := tl; last := Some c |})
        | K =>
            match readKind K {| pending := c :: tl; last := None |} with
            | (Ok v, r') => (Ok (v, K), r')
            | (Err e, r') => (Err e, r')
            end
        end.
Proof.
  each_byte ltac:(intros tl l;
    match goal with
    | |- ReadInterface {| pending := ?c :: _; last := _ |} = _ =>
        first [ reflexivity
              | exact (reread_boxed String I_string readString c tl)
              | exact (reread_boxed Int I_int64 readInt c tl)
              | exact (reread_boxed Uint I_uint64 readUint c tl)
              | exact (reread_boxed Float I_float64 readFloat c tl)
              | exact (reread_boxed Bin I_bytes (readBin []) c tl)
              | exact (reread_boxed Ext box_ext (readExt []) c tl) ]
    end).
Qed.

(** What a writer emits starts with a tag byte of its own kind. *)
Lemma writeAs_head (K : MType) (v : iface) (out : list Z) :
  writeAs K v = Some out -> legal v ->
  exists c tl, out = c :: tl /\ 0 <= c < 256 /\ tagType c = K.
Proof.
  unfold writeAs, WriteInt, WriteUint, WriteFloat, WriteBool, WriteString,
    WriteBin, WriteExt.
  destruct K, v; try discriminate; try (destruct p; try discriminate);
    intros [= <-] Hl; simpl in Hl.
  - unfold writeInt, WriteByte, WriteBytes.
    repeat case_match; zbool; simpl app; do 2 eexists;
      (split; [reflexivity|]).
    + split; [lia | apply tagType_fixint; lia].
    + split; [lia | apply tagType_nfixint; lia].
    + split; [unfold_tags; lia | reflexivity].
    + split; [unfold_tags; lia | reflexivity].
    + split; [unfold_tags; lia | reflexivity].
    + split; [unfold_tags; lia | reflexivity].
  - unfold writeUint, WriteBytes.
    repeat case_match; simpl app; do 2 eexists;
      (split; [reflexivity|]); (split; [unfold_tags; lia | reflexivity]).
  - do 2 eexists. split; [reflexivity|].
    split; [unfold_tags; lia | reflexivity].
  - destruct b; do 2 eexists; (split; [reflexivity|]);
      (split; [unfold_tags; lia | reflexivity]).
  - pose proof (zlen_nonneg (string_bytes s)) as H0.
    unfold writeString, WriteBytes. cbv zeta.
    repeat case_match; zbool; simpl app; do 2 eexists;
      (split; [reflexivity|]).
    + split; [apply fixstr_bits; lia | apply tagType_fixstr; lia].
    + split; [unfold_tags; lia | reflexivity].
    + split; [unfold_tags; lia | reflexivity].
    + split; [unfold_tags; lia | reflexivity].
  - unfold writeBin, WriteBytes. cbv zeta.
    repeat case_match; simpl app; do 2 eexists;
      (split; [reflexivity|]); (split; [unfold_tags; lia | reflexivity]).
  - unfold writeExt, WriteBytes. cbv zeta.
    repeat case_match; simpl app; do 2 eexists;
      (split; [reflexivity|]); (split; [unfold_tags; lia | reflexivity]).
Qed.

(** The reader of a kind returns what the writer of that kind was given,
    and consumes exactly the bytes written. *)
Lemma readKind_writeAs (K : MType) (v : iface) (out rest : list Z) (l : option Z) :
  writeAs K v = Some out -> legal v ->
  exists l',
    readKind K {| pending := out ++ rest; last := l |}
    = (Ok v, {| pending := rest; last := l' |}).
Proof.
  unfold writeAs, WriteInt, WriteUint, WriteFloat, WriteBool, WriteString,
    WriteBin, WriteExt.
  destruct K, v; try discriminate; try (destruct p; try discriminate);
    intros [= <-] Hl; simpl in Hl; unfold readKind, boxed.
  - destruct (readInt_writeInt i rest l Hl) as [l' ->]. eauto.
  - rewrite readUint_writeUint by exact Hl. eauto.
  - rewrite readFloat_writeFloat by exact Hl. eauto.
  - rewrite readBool_writeBool. eauto.
  - rewrite readString_writeString by exact Hl. eauto.
  - rewrite readBin_writeBin by exact Hl. eauto.
  - match goal with x : PackExt |- _ => destruct x as [et da] end.
    simpl in Hl. destruct Hl as [Ht Hd]. cbn [EType Data].
    rewrite readExt_writeExt by assumption. eauto.
Qed.

(** ** Wrong-tag push-back *)

(** Whatever follows the tag: an exported reader facing a tag of another
    kind answers [ErrBadTag] with the tag byte back on the source. *)
Lemma ReadAs_bad_tag (A : MType) (readA : rd iface)
    (c : Z) (tl : list Z) (l : option Z) :
  ReadAs A = Some readA ->
  0 <= c < 256 ->
  tagType c <> A ->
  readA {| pending := c :: tl; last := l |}
  = (Err ErrBadTag, {| pending := c :: tl; last := None |}).
Proof.
  intros HA Hc Ht. rewrite (ReadAs_readKind A readA _ HA).
  rewrite readKind_bad_tag; [reflexivity | exact Hc | | exact Ht].
  intros ->. discriminate HA.
Qed.

(** C3.  Let [A] and [B] be distinct kinds with readers, and let the source
    stand at the bytes the kind-[B] writer emitted for a legal value [v].
    The exported kind-[A] reader answers [ErrBadTag] and leaves every byte
    to be read again (the tag byte is pushed back); the exported kind-[B]
    reader then returns [v] and consumes exactly the bytes of [v]. *)
Theorem wrong_tag_pushback :
  forall (A B : MType) (readA readB : rd iface) (v : iface)
         (out rest : list Z) (l : option Z),
    A <> B ->
    ReadAs A = Some readA ->
    ReadAs B = Some readB ->
    writeAs B v = Some out ->
    legal v ->
    readA {| pending := out ++ rest; last := l |}
    = (Err ErrBadTag, {| pending := out ++ rest; last := None |})
    /\ exists l',
         readB {| pending := out ++ rest; last := None |}
         = (Ok v, {| pending := rest; last := l' |}).
Proof.
  intros A B readA readB v out rest l Hne HA HB Hw Hl.
  destruct (writeAs_head B v out Hw Hl) as (c & tl & -> & Hc & Ht).
  split.
  - simpl app. apply (ReadAs_bad_tag A); [exact HA | exact Hc | congruence].
  - destruct (readKind_writeAs B v (c :: tl) rest None Hw Hl) as [l' Hr].
    exists l'. rewrite (ReadAs_readKind B readB _ HB), Hr. reflexivity.
Qed.

Lemma wrong_tag_pushback_witness :
  boxed I_int64 ReadInt
    {| pending := WriteString [] "x" ++ [mtrue]; last := None |}
  = (Err ErrBadTag,
     {| pending := WriteString [] "x" ++ [mtrue]; last := None |})
  /\ exists l',
       boxed I_string ReadString
         {| pending := WriteString [] "x" ++ [mtrue]; last := None |}
       = (Ok (I_string "x"), {| pending := [mtrue]; last := l' |}).
Proof.
  refine (wrong_tag_pushback Int String _ _ (I_string "x") _ [mtrue] None
            _ eq_refl eq_refl eq_refl _).
  - discriminate.
  - vm_compute. reflexivity.
Defined.

(** ** The dynamically-typed reader *)

(** C4.  For each of the seven kinds [K] and each legal host value [v] of
    [K], [ReadInterface] run on the bytes the kind-[K] writer emitted for
    [v] returns [v] with [Type = K], and consumes exactly those bytes. *)
Theorem ReadInterface_roundtrip :
  forall (K : MType) (v : iface) (out rest : list Z) (l : option Z),
    writeAs K v = Some out ->
    legal v ->
    exists l',
      ReadInterface {| pending := out ++ rest; last := l |}
      = (Ok (v, K), {| pending := rest; last := l' |}).
Proof.
  intros K v out rest l Hw Hl.
  destruct (writeAs_head K v out Hw Hl) as (c & tl & Hout & Hc & Ht).
  destruct (readKind_writeAs K v out rest None Hw Hl) as [l' Hr].
  exists l'. subst out. simpl app in *.
  rewrite ReadInterface_dispatch by exact Hc. rewrite Ht.
  destruct K; cbv zeta; try (rewrite Hr; reflexivity).
  destruct v; cbn in Hw; discriminate Hw.
Qed.

Lemma ReadInterface_roundtrip_witness :
  exists l',
    ReadInterface {| pending := WriteExt [] 7 [1; 2; 3] ++ [mtrue]; last := None |}
    = (Ok (I_PackExtPtr (Some {| EType := 7; Data := [1; 2; 3] |}), Ext),
       {| pending := [mtrue]; last := l' |}).
Proof.
  refine (ReadInterface_roundtrip Ext
            (I_PackExtPtr (Some {| EType := 7; Data := [1; 2; 3] |}))
            _ [mtrue] None eq_refl _).
  vm_compute. repeat split; discriminate.
Defined.

(** ** [DecodeToMap] on the kinds it has a case for *)

(** Away from [Bool], the claim of C1 holds: when every field is of a kind
    with a case in [DecodeToMap] and the source holds one legal value of
    each field's kind in order, every value is stored under its field's
    name and nil is returned. *)
Lemma DecodeToMap_decodes (s : Schema) :
  forall (vs : list iface) (rest : list Z) (l : option Z)
         (m : gmap string iface),
    Forall2 (fun o v => decodable (T o) = true
                        /\ is_Some (writeAs (T o) v) /\ legal v) s vs ->
    exists l',
      DecodeToMap s {| pending := streamOf s vs ++ rest; last := l |} m
      = (None, {| pending := rest; last := l' |}, stored s vs m).
Proof.
  induction s as [|o s IH]; intros vs rest l m H; inversion H as [|? v ? vs' Hov Hrest]; subst.
  - exists l. reflexivity.
  - destruct Hov as (Hd & [out Hw] & Hl).
    cbn [streamOf stored]. rewrite Hw. cbn [default from_option id].
    rewrite <- app_assoc.
    destruct o as [t n]. cbn [T Name] in *.
    unfold writeAs, WriteInt, WriteUint, WriteFloat, WriteString, WriteBin,
      WriteExt in Hw.
    destruct t; try discriminate Hd; destruct v; try discriminate Hw;
      try (destruct p as [[et da]|]; try discriminate Hw);
      injection Hw as <-; simpl in Hl; cbn [DecodeToMap T Name].
    + destruct (readInt_writeInt i (streamOf s vs' ++ rest) l Hl) as [l1 ->].
      apply IH, Hrest.
    + rewrite readUint_writeUint by exact Hl. apply IH, Hrest.
    + rewrite readFloat_writeFloat by exact Hl. apply IH, Hrest.
    + rewrite readString_writeString by exact Hl. apply IH, Hrest.
    + rewrite readBin_writeBin by exact Hl. apply IH, Hrest.
    + destruct Hl as [Ht Hlen]. cbn [EType Data].
      rewrite readExt_writeExt by assumption. apply IH, Hrest.
Qed.

Example DecodeToMap_decodes_run :
  DecodeToMap [{| T := Int; Name := "n" |}; {| T := String; Name := "s" |}]
              {| pending := WriteInt [] 10 ++ WriteString [] "x"; last := None |} ∅
  = (None, {| pending := []; last := None |},
     <["s"%string := I_string "x"]> (<["n"%string := I_int64 10]> ∅)).
Proof. reflexivity. Qed.

(** * Further properties of the schema layer *)

Lemma scalarKind_facts (o : Object) (v : iface) :
  scalarKind (T o) = true -> hostMatches (T o) v = true ->
  accepted v o
  /\ decodable (T o) = true
  /\ writeAs (T o) v = Some (encode v o []).2.
Proof.
  unfold accepted, encode, writeAs, WriteInt, WriteUint, WriteFloat, WriteString.
  destruct (T o), v; simpl; intros; try discriminate; auto.
Qed.

Lemma stored_notin (s : Schema) :
  forall (a : list iface) (m : gmap string iface) (k : string),
    k ∉ (Name <$> s) -> stored s a m !! k = m !! k.
Proof.
  induction s as [|o s IH]; intros a m k Hk; [reflexivity|].
  destruct a as [|v a]; [reflexivity|].
  rewrite fmap_cons in Hk. apply not_elem_of_cons in Hk as [Hne Hk].
  cbn [stored]. rewrite IH by exact Hk. apply lookup_insert_ne. congruence.
Qed.

Lemma stored_lookup (s : Schema) :
  forall (a : list iface) (m : gmap string iface) (i : nat) (o : Object) (v : iface),
    NoDup (Name <$> s) -> s !! i = Some o -> a !! i = Some v ->
    stored s a m !! Name o = Some v.
Proof.
  induction s as [|o0 s IH]; intros a m i o v Hnd Ho Hv; [discriminate|].
  destruct a as [|v0 a]; [discriminate|].
  rewrite fmap_cons in Hnd. apply NoDup_cons in Hnd as [Hnotin Hnd].
  cbn [stored]. destruct i as [|i].
  - injection Ho as <-. injection Hv as <-.
    rewrite stored_notin by exact Hnotin. apply lookup_insert_eq.
  - exact (IH a _ i o v Hnd Ho Hv).
Qed.

(** X1.  Round trip of the schema layer.  For a schema of kinds [Int],
    [Uint], [Float] and [String] and a value list that gives every field a
    legal value of its host type, [Encode] returns nil having appended the
    message to the sink, and [DecodeToMap] with the same schema, run on that
    message followed by anything, returns nil, consumes exactly the message
    and has stored every value; with distinct field names, each field's
    name maps to the value that was encoded for it. *)
Theorem Encode_DecodeToMap_roundtrip :
  forall (s : Schema) (a : list iface) (w rest : list Z) (l : option Z)
         (m : gmap string iface),
    Forall2 (fun o v => scalarKind (T o) = true
                        /\ hostMatches (T o) v = true /\ legal v) s a ->
    exists (out : list Z) (l' : option Z) (m' : gmap string iface),
      Encode s a w = Normal (None, w ++ out)
      /\ DecodeToMap s {| pending := out ++ rest; last := l |} m
         = (None, {| pending := rest; last := l' |}, m')
      /\ (NoDup (Name <$> s) ->
          forall (i : nat) (o : Object) (v : iface),
            s !! i = Some o -> a !! i = Some v -> m' !! Name o = Some v).
Proof.
  intros s a w rest l m H.
  assert (Hacc : Forall2 accepted a s).
  { apply Forall2_flip. eapply Forall2_impl; [exact H|].
    intros o v (Hk & Hh & _). apply (scalarKind_facts o v Hk Hh). }
  assert (Hdec : Forall2 (fun o v => decodable (T o) = true
                            /\ is_Some (writeAs (T o) v) /\ legal v) s a).
  { eapply Forall2_impl; [exact H|].
    intros o v (Hk & Hh & Hl).
    destruct (scalarKind_facts o v Hk Hh) as (_ & Hd & Hw).
    rewrite Hw. eauto. }
  assert (Hwire : wire s a = streamOf s a).
  { clear Hacc Hdec. unfold wire.
    induction H as [|o v s a (Hk & Hh & _) _ IH]; [reflexivity|].
    cbn [zip_with concat streamOf]. rewrite IH.
    destruct (scalarKind_facts o v Hk Hh) as (_ & _ & ->). reflexivity. }
  destruct (DecodeToMap_decodes s a rest l m Hdec) as [l' Hd].
  exists (wire s a), l', (stored s a m). split; [|split].
  - apply Encode_accepted, Hacc.
  - rewrite Hwire. exact Hd.
  - intros Hnd i o v Ho Hv. exact (stored_lookup s a m i o v Hnd Ho Hv).
Qed.

Lemma Encode_DecodeToMap_roundtrip_witness :
  exists (out : list Z) (l' : option Z) (m' : gmap string iface),
    Encode [{| T := Int; Name := "n" |}; {| T := String; Name := "s" |}]
           [I_int64 (-300); I_string "x"] []
    = Normal (None, [] ++ out)
    /\ DecodeToMap [{| T := Int; Name := "n" |}; {| T := String; Name := "s" |}]
         {| pending := out ++ [0xc3]; last := None |} ∅
       = (None, {| pending := [0xc3]; last := l' |}, m')
    /\ m' !! "n"%string = Some (I_int64 (-300)).
Proof.
  destruct (Encode_DecodeToMap_roundtrip
              [{| T := Int; Name := "n" |}; {| T := String; Name := "s" |}]
              [I_int64 (-300); I_string "x"] [] [0xc3] None ∅)
    as (out & l' & m' & He & Hd & Hm).
  - repeat constructor; vm_compute; intuition discriminate.
  - exists out, l', m'. split; [exact He|]. split; [exact Hd|].
    apply (Hm ltac:(apply (bool_decide_unpack _); vm_compute; exact I) 0%nat
              {| T := Int; Name := "n" |} (I_int64 (-300)) eq_refl eq_refl).
Defined.

(** X2.  [MakeSchema] never panics, and it answers [ErrBadArgs] (with no
    schema) exactly when the two lists differ in length. *)
Theorem MakeSchema_total :
  forall (zeroType : MType) (names : list string) (types : list iface),
    MakeSchema zeroType names types <> Panics
    /\ (length names <> length types
        <-> MakeSchema zeroType names types = Normal (None, Some ErrBadArgs)).
Proof.
  intros z names types. unfold MakeSchema.
  destruct (Nat.eqb_spec (length names) (length types)) as [Hlen|Hlen];
    cbn [negb].
  - pose proof (MakeSchema_loop_spec types [] names []
                  (replicate (length names) {| T := z; Name := EmptyString |})
                  eq_refl Hlen) as Hloop.
    rewrite length_replicate in Hloop. specialize (Hloop Hlen).
    simpl in Hloop. rewrite Hloop.
    destruct (mapM kindOf types); split; try discriminate;
      split; intros; congruence.
  - split; [discriminate|]. split; auto.
Qed.

Lemma MakeSchema_kinds (z : MType) (names : list string) (types : list iface)
    (s : Schema) :
  MakeSchema z names types = Normal (Some s, None) ->
  Forall (fun o => schemaKind (T o) = true) s.
Proof.
  unfold MakeSchema.
  destruct (Nat.eqb_spec (length names) (length types)) as [Hlen|Hlen];
    cbn [negb]; [|discriminate].
  pose proof (MakeSchema_loop_spec types [] names []
                (replicate (length names) {| T := z; Name := EmptyString |})
                eq_refl Hlen) as Hloop.
  rewrite length_replicate in Hloop. specialize (Hloop Hlen).
  simpl in Hloop. rewrite Hloop.
  destruct (mapM kindOf types) as [ts|] eqn:Hm; [|discriminate].
  intros [= <-]. apply mapM_Some in Hm.
  assert (Hts : Forall (fun t => schemaKind t = true) ts).
  { clear -Hm. induction Hm as [|k t ? ? Hk _ IH]; constructor; [|exact IH].
    destruct k; simpl in Hk; try discriminate; injection Hk as <-; reflexivity. }
  clear -Hts. revert names.
  induction Hts as [|t ts Ht _ IH]; intros names.
  - destruct names; constructor.
  - destruct names as [|n names]; [constructor|].
    constructor; [exact Ht | apply IH].
Qed.

Lemma Encode_schemaKind_faults (s : Schema) :
  forall (a : list iface) (w : Writer),
    Forall (fun o => schemaKind (T o) = true) s ->
    length a = length s ->
    exists e w', Encode s a w = Normal (e, w')
                 /\ (e = None \/ e = Some ErrIncorrectType).
Proof.
  induction s as [|o s IH]; intros a w Hk Hlen.
  - destruct a; [|discriminate]. exists None, w. auto.
  - destruct a as [|v a]; [discriminate|]. injection Hlen as Hlen.
    apply Forall_cons in Hk as [Ho Hk]. rewrite Encode_cons.
    destruct (hostMatches (T o) v) eqn:Hh.
    + pose proof (encode_matches v o w Ho Hh) as He.
      destruct (encode v o w) as [[e|] w']; [discriminate He|].
      apply IH; assumption.
    + rewrite (encode_mismatch v o w Ho Hh). eauto.
Qed.

(** X3.  A schema built by [MakeSchema] holds only kinds [encode] has a
    case for: on a value list of the schema's length [Encode] returns (it
    does not panic), and the only fault it can return is
    [ErrIncorrectType], never the dispatch fault. *)
Theorem MakeSchema_Encode_faults :
  forall (zeroType : MType) (names : list string) (types : list iface)
         (s : Schema) (a : list iface) (w : Writer),
    MakeSchema zeroType names types = Normal (Some s, None) ->
    length a = length s ->
    exists e w', Encode s a w = Normal (e, w')
                 /\ (e = None \/ e = Some ErrIncorrectType).
Proof.
  intros z names types s a w Hmk Hlen.
  apply Encode_schemaKind_faults; [|exact Hlen].
  exact (MakeSchema_kinds z names types s Hmk).
Qed.

Lemma MakeSchema_Encode_faults_witness :
  exists e w',
    Encode [{| T := Uint; Name := "u" |}] [I_uint8 7] [] = Normal (e, w')
    /\ (e = None \/ e = Some ErrIncorrectType).
Proof.
  exact (MakeSchema_Encode_faults Invalid ["u"%string] [I_uint8 7]
           [{| T := Uint; Name := "u" |}] [I_uint8 7] [] eq_refl eq_refl).
Defined.

(** X4.  [MakeSchema] infers a kind from fifteen example types, but [encode]
    under the inferred kind accepts only [float64], [uint64], [int64],
    [bool], [string] and [[]byte]: an example of any of the nine other
    numeric types is itself answered with [ErrIncorrectType] and nothing is
    written. *)
Theorem encode_example_value :
  forall (k : iface) (t : MType) (n : string) (w : Writer),
    kindOf k = Some t ->
    match k with
    | I_float64 _ | I_uint64 _ | I_int64 _ | I_bool _ | I_string _
    | I_bytes _ => (encode k {| T := t; Name := n |} w).1 = None
    | _ => encode k {| T := t; Name := n |} w = (Some ErrIncorrectType, w)
    end.
Proof.
  intros k t n w Hk.
  destruct k; simpl in Hk; try discriminate; injection Hk as <-; reflexivity.
Qed.

Lemma encode_example_value_witness :
  encode (I_int8 1) {| T := Int; Name := "schema" |} [0xc3]
  = (Some ErrIncorrectType, [0xc3]).
Proof.
  exact (encode_example_value (I_int8 1) Int "schema" [0xc3] eq_refl).
Defined.

(** X5.  Field by field, [Schema.Encode] is [WriteInterface]: for every
    declared kind but [Ext], [encode] returns the fault and leaves the sink
    exactly as [WriteInterface] does for the same value and kind. *)
Theorem encode_is_WriteInterface :
  forall (v : iface) (o : Object) (w : Writer),
    T o <> Ext ->
    WriteInterface w v (T o) = Normal (encode v o w).
Proof.
  intros v o w Hext. unfold encode.
  destruct (T o); try congruence; destruct v; reflexivity.
Qed.

Lemma encode_is_WriteInterface_witness :
  WriteInterface [1] (I_string "x") String
  = Normal (encode (I_string "x") {| T := String; Name := "s" |} [1]).
Proof.
  apply (encode_is_WriteInterface (I_string "x")
           {| T := String; Name := "s" |} [1]).
  discriminate.
Defined.

Lemma writeInt_nonempty i : writeInt [] i <> [].
Proof. unfold writeInt, WriteByte, WriteBytes. repeat case_match; discriminate. Qed.

Lemma writeUint_nonempty u : writeUint [] u <> [].
Proof. unfold writeUint, WriteBytes. repeat case_match; discriminate. Qed.

Lemma writeString_nonempty s : writeString [] s <> [].
Proof. unfold writeString, WriteBytes. repeat case_match; discriminate. Qed.

Lemma writeBin_nonempty p : writeBin [] p <> [].
Proof. unfold writeBin, WriteBytes. repeat case_match; discriminate. Qed.

Lemma writeExt_nonempty t d : writeExt [] t d <> [].
Proof. unfold writeExt, WriteBytes. repeat case_match; discriminate. Qed.

(** X6.  [WriteInterface] touches the sink only when it succeeds: a call
    that returns a fault leaves the sink as it was, and a call that returns
    nil has appended at least one byte after what the sink held. *)
Theorem WriteInterface_sink :
  forall (w : Writer) (v : iface) (t : MType) (e : option error) (w' : Writer),
    WriteInterface w v t = Normal (e, w') ->
    match e with
    | Some _ => w' = w
    | None => exists out, out <> [] /\ w' = w ++ out
    end.
Proof.
  intros w v t e w' H.
  destruct t, v; simpl in H; try (injection H as <- <-; reflexivity);
    try (destruct p; [|discriminate H]); injection H as <- <-.
  - exists (writeInt [] i). split; [apply writeInt_nonempty | apply writeInt_app].
  - exists (writeUint [] u). split; [apply writeUint_nonempty | apply writeUint_app].
  - exists (writeFloat [] bits). split; [discriminate | apply writeFloat_app].
  - exists (writeBool [] b). split; [destruct b; discriminate | apply writeBool_app].
  - exists (writeString [] s). split; [apply writeString_nonempty | apply writeString_app].
  - exists (writeBin [] b). split; [apply writeBin_nonempty | apply writeBin_app].
  - exists (writeExt [] (EType p) (Data p)).
    split; [apply writeExt_nonempty | apply writeExt_app].
Qed.

Lemma WriteInterface_sink_witness :
  [0xc3; 0xc2] = [0xc3; 0xc2]
  /\ exists out, out <> [] /\ [0xc3; 0xcc; 200] = [0xc3] ++ out.
Proof.
  split.
  - exact (WriteInterface_sink [0xc3; 0xc2] (I_int64 1) Uint
             (Some ErrIncorrectType) [0xc3; 0xc2] eq_refl).
  - exact (WriteInterface_sink [0xc3] (I_uint64 200) Uint None
             [0xc3; 0xcc; 200] eq_refl).
Defined.

Lemma Encode_prefix (s : Schema) :
  forall (a : list iface) (w : Writer) (e : option error) (w' : Writer),
    Encode s a w = Normal (e, w') -> exists k, w' = w ++ k.
Proof.
  induction s as [|o s IH]; intros a w e w' H.
  - destruct a; [|discriminate H]. injection H as _ <-.
    exists []. rewrite app_nil_r. reflexivity.
  - destruct a as [|v a];
      [injection H as _ <-; exists []; rewrite app_nil_r; reflexivity|].
    rewrite Encode_cons, encode_app in H.
    destruct (encode v o []).1.
    + injection H as _ <-. eauto.
    + apply IH in H as [k ->]. rewrite <- app_assoc. eauto.
Qed.

(** X7.  [Encode] never removes or rewrites what the sink already holds:
    whenever it returns, with or without a fault, the sink it leaves starts
    with the sink it was given. *)
Theorem Encode_extends_sink :
  forall (s : Schema) (a : list iface) (w : Writer)
         (e : option error) (w' : Writer),
    Encode s a w = Normal (e, w') -> w `prefix_of` w'.
Proof.
  intros s a w e w' H. exact (Encode_prefix s a w e w' H).
Qed.

Lemma Encode_extends_sink_witness :
  [0xc1; 0xc1] `prefix_of` [0xc1; 0xc1; 10].
Proof.
  exact (Encode_extends_sink
           [{| T := Int; Name := "n" |}; {| T := Bool; Name := "b" |}]
           [I_int64 10; I_int64 11] [0xc1; 0xc1]
           (Some ErrIncorrectType) [0xc1; 0xc1; 10] eq_refl).
Defined.

(** X8.  Messages concatenate.  Encoding with the schema [s1 ++ s2] the
    values [a1 ++ a2], where [a1] has one value per field of [s1], is
    encoding [a1] with [s1] and then, if that returned nil, [a2] with [s2]
    into the same sink; a fault or panic of the first part is the result
    of the whole. *)
Theorem Encode_concat :
  forall (s1 s2 : Schema) (a1 a2 : list iface) (w : Writer),
    length a1 = length s1 ->
    Encode (s1 ++ s2) (a1 ++ a2) w
    = match Encode s1 a1 w with
      | Normal (None, w') => Encode s2 a2 w'
      | res => res
      end.
Proof.
  intros s1. induction s1 as [|o s1 IH]; intros s2 a1 a2 w Hlen.
  - destruct a1; [reflexivity | discriminate].
  - destruct a1 as [|v a1]; [discriminate|]. injection Hlen as Hlen.
    rewrite <- !app_comm_cons, !Encode_cons.
    destruct (encode v o w) as [[e|] w']; [reflexivity|].
    apply IH, Hlen.
Qed.

Lemma Encode_concat_witness :
  Encode ([{| T := Int; Name := "n" |}] ++ [{| T := Bool; Name := "b" |}])
         ([I_int64 10] ++ [I_bool true]) []
  = Encode [{| T := Bool; Name := "b" |}] [I_bool true] [10].
Proof.
  exact (Encode_concat [{| T := Int; Name := "n" |}]
           [{| T := Bool; Name := "b" |}] [I_int64 10] [I_bool true] []
           eq_refl).
Defined.



Lemma encode_kind (v : iface) (o o' : Object) (w : Writer) :
  T o = T o' -> encode v o w = encode v o' w.
Proof. intros H. unfold encode. rewrite H. reflexivity. Qed.

(** X10.  The wire carries no field names: two schemas with the same kinds
    in the same order make [Encode] do the same on every value list and
    sink, whatever their fields are called. *)
Theorem Encode_ignores_names :
  forall (s s' : Schema) (a : list iface) (w : Writer),
    T <$> s = T <$> s' ->
    Encode s a w = Encode s' a w.
Proof.
  intros s. induction s as [|o s IH]; intros s' a w H.
  - destruct s'; [reflexivity | discriminate H].
  - destruct s' as [|o' s']; [discriminate H|].
    rewrite !fmap_cons in H. injection H as Ho H.
    destruct a as [|v a]; [reflexivity|].
    rewrite !Encode_cons, (encode_kind v o o' w Ho).
    destruct (encode v o' w) as [[e|] w']; [reflexivity|].
    apply IH, H.
Qed.

Lemma Encode_ignores_names_witness :
  Encode [{| T := Int; Name := "n" |}] [I_int64 10] []
  = Encode [{| T := Int; Name := "count" |}] [I_int64 10] [].
Proof.
  exact (Encode_ignores_names [{| T := Int; Name := "n" |}]
           [{| T := Int; Name := "count" |}] [I_int64 10] [] eq_refl).
Defined.

Lemma boxed_Err {A} (box : A -> iface) (read : rd A) (r r' : Reader) (e : error) :
  boxed box read r = (Err e, r') -> read r = (Err e, r').
Proof.
  unfold boxed. destruct (read r) as [[a|e'] r'']; intros H;
    [discriminate H | injection H as <- <-; reflexivity].
Qed.

Lemma DecodeToMap_bad_tag :
  forall (o : Object) (s' : Schema) (c : Z) (tl : list Z) (l : option Z)
         (m : gmap string iface),
    decodable (T o) = true ->
    0 <= c < 256 ->
    tagType c <> T o ->
    DecodeToMap (o :: s') {| pending := c :: tl; last := l |} m
    = (Some ErrBadTag, {| pending := tl; last := Some c |}, m).
Proof.
  intros o s' c tl l m Hd Hc Ht.
  assert (Hr : readKind (T o) {| pending := c :: tl; last := l |}
               = (Err ErrBadTag, {| pending := tl; last := Some c |})).
  { apply readKind_bad_tag; [exact Hc | | exact Ht].
    intros HI. rewrite HI in Hd. discriminate Hd. }
  cbn [DecodeToMap].
  destruct (T o); try discriminate Hd; unfold readKind in Hr;
    apply boxed_Err in Hr.
  - rewrite Hr. reflexivity.
  - rewrite Hr. reflexivity.
  - rewrite Hr. reflexivity.
  - rewrite Hr. reflexivity.
  - assert (Hb : readBin (take 16 bs) {| pending := c :: tl; last := l |}
                 = readBin [] {| pending := c :: tl; last := l |}) by reflexivity.
    rewrite Hb, Hr. reflexivity.
  - assert (Hb : readExt (take 16 bs) {| pending := c :: tl; last := l |}
                 = readExt [] {| pending := c :: tl; last := l |}) by reflexivity.
    rewrite Hb, Hr. reflexivity.
Qed.

(** X11.  [DecodeToMap] does not push back.  When the next field is of a
    kind [DecodeToMap] has a case for and the source starts with the tag of
    another kind, the call returns [ErrBadTag] with that tag byte consumed
    and the map as it was: unlike the exported readers, it leaves the source
    one byte further. *)
Theorem DecodeToMap_wrong_tag :
  forall (o : Object) (s' : Schema) (c : Z) (tl : list Z) (l : option Z)
         (m : gmap string iface),
    decodable (T o) = true ->
    0 <= c < 256 ->
    tagType c <> T o ->
    DecodeToMap (o :: s') {| pending := c :: tl; last := l |} m
    = (Some ErrBadTag, {| pending := tl; last := Some c |}, m).
Proof.
  intros o s' c tl l m. apply DecodeToMap_bad_tag.
Qed.

Lemma DecodeToMap_wrong_tag_witness :
  DecodeToMap [{| T := String; Name := "s" |}; {| T := Int; Name := "n" |}]
              {| pending := [10; 0xa1; 120]; last := None |} ∅
  = (Some ErrBadTag, {| pending := [0xa1; 120]; last := Some 10 |}, ∅).
Proof.
  apply (DecodeToMap_wrong_tag {| T := String; Name := "s" |}
           [{| T := Int; Name := "n" |}] 10 [0xa1; 120] None ∅).
  - reflexivity.
  - lia.
  - discriminate.
Defined.

(** X12.  Schema order sensitivity.  A message that [Encode] wrote for a
    schema whose first field is of kind [B], with a legal first value,
    makes [DecodeToMap] with any schema whose first field is of another
    kind [A] (one it has a case for) return [ErrBadTag] at that first
    field, with nothing stored. *)
Theorem DecodeToMap_after_Encode_other_kind :
  forall (o o' : Object) (s s' : Schema) (v : iface) (a : list iface)
         (out rest : list Z) (l : option Z) (m : gmap string iface),
    Encode (o :: s) (v :: a) [] = Normal (None, out) ->
    legal v ->
    decodable (T o') = true ->
    T o' <> T o ->
    exists c tl,
      out ++ rest = c :: tl
      /\ DecodeToMap (o' :: s') {| pending := out ++ rest; last := l |} m
         = (Some ErrBadTag, {| pending := tl; last := Some c |}, m).
Proof.
  intros o o' s s' v a out rest l m He Hl Hd Hne.
  rewrite Encode_cons in He.
  destruct (encode v o []) as [[e|] w1] eqn:Hen; [discriminate He|].
  assert (Hw : writeAs (T o) v = Some w1).
  { unfold encode in Hen. unfold writeAs, WriteInt, WriteUint, WriteFloat,
      WriteBool, WriteString, WriteBin.
    destruct (T o), v; try discriminate Hen; injection Hen as <-; reflexivity. }
  destruct (writeAs_head (T o) v w1 Hw Hl) as (c & tl & -> & Hc & Ht).
  apply Encode_prefix in He as [k ->].
  exists c, (tl ++ k ++ rest). split.
  - rewrite <- app_assoc. reflexivity.
  - rewrite <- app_assoc. simpl app.
    apply DecodeToMap_bad_tag; [exact Hd | exact Hc | congruence].
Qed.

Lemma DecodeToMap_after_Encode_other_kind_witness :
  exists c tl,
    [10; 0xa1; 120] ++ [] = c :: tl
    /\ DecodeToMap [{| T := String; Name := "s" |}; {| T := Int; Name := "n" |}]
         {| pending := [10; 0xa1; 120] ++ []; last := None |} ∅
       = (Some ErrBadTag, {| pending := tl; last := Some c |}, ∅).
Proof.
  apply (DecodeToMap_after_Encode_other_kind
           {| T := Int; Name := "n" |} {| T := String; Name := "s" |}
           [{| T := String; Name := "s" |}] [{| T := Int; Name := "n" |}]
           (I_int64 10) [I_string "x"] [10; 0xa1; 120] [] None ∅).
  - reflexivity.
  - simpl. lia.
  - reflexivity.
  - discriminate.
Defined.

(** * Further properties of the readers *)

Ltac reread_cases H :=
  unfold reread, Legacy.reread, rd_ret, rd_fail in H;
  repeat match type of H with
  | context [match UnreadByte ?r with _ => _ end] =>
      destruct (UnreadByte r) as [[?|] ?]
  | context [match ?c ?r with _ => _ end] =>
      match type of (c r) with
      | (result _ * Reader)%type => destruct (c r) as [[?|?] ?]
      end
  end.

(** X13.  The documented type assertions of [ReadInterface] are legal:
    whenever it returns no error, the [Type] it reports is one of the
    seven kinds and the value it returns has that kind's host type
    ([int64], [uint64], [float64], [bool], [string], [[]byte], or a non-nil
    [*PackExt]). *)
Theorem ReadInterface_type_assertions :
  forall (r r' : Reader) (v : iface) (t : MType),
    ReadInterface r = (Ok (v, t), r') ->
    hostMatches t v = true /\ t <> Invalid /\ v <> I_PackExtPtr None.
Proof.
  intros r r' v t H. unfold ReadInterface, rd_bind in H.
  destruct (ReadByte r) as [[c|e] r0]; [|discriminate H].
  repeat match type of H with
  | (if ?b then _ else _) _ = _ => destruct b
  end; reread_cases H; try discriminate H;
    injection H as <- <- _; repeat split; discriminate.
Qed.

Lemma ReadInterface_type_assertions_witness :
  hostMatches Uint (I_uint64 300) = true
  /\ Uint <> Invalid /\ I_uint64 300 <> I_PackExtPtr None.
Proof.
  exact (ReadInterface_type_assertions
           {| pending := [0xcd; 1; 44; 0xc3]; last := None |}
           {| pending := [0xc3]; last := None |} (I_uint64 300) Uint eq_refl).
Defined.

(** X14.  The pointer-writing readers of the older file consume the source
    exactly as the value-returning readers do: same fault, same source
    afterwards, push-back on [ErrBadTag] included.  Only the decoded value is
    lost. *)
Theorem Legacy_readers_consume_alike :
  forall (r : Reader) (p : option Legacy.loc) (h : gmap Legacy.loc iface),
    (Legacy.ReadFloat r p h).1
    = match ReadFloat r with (Ok _, r') => (None, r') | (Err e, r') => (Some e, r') end
    /\ (Legacy.ReadInt r p h).1
       = match ReadInt r with (Ok _, r') => (None, r') | (Err e, r') => (Some e, r') end
    /\ (Legacy.ReadUint r p h).1
       = match ReadUint r with (Ok _, r') => (None, r') | (Err e, r') => (Some e, r') end
    /\ (Legacy.ReadString r p h).1
       = match ReadString r with (Ok _, r') => (None, r') | (Err e, r') => (Some e, r') end
    /\ (Legacy.ReadBool r p h).1
       = match ReadBool r with (Ok _, r') => (None, r') | (Err e, r') => (Some e, r') end.
Proof.
  intros r p h.
  unfold Legacy.ReadFloat, Legacy.ReadInt, Legacy.ReadUint, Legacy.ReadString,
    Legacy.ReadBool, Legacy.readInto, ReadFloat, ReadInt, ReadUint, ReadString,
    ReadBool, unreadOnBadTag.
  repeat split;
    match goal with
    | |- context [match ?c r with _ => _ end] => destruct (c r) as [[a|[]] r']
    end; reflexivity.
Qed.

(** X15.  On every source where [ReadInterface] returns a value of a kind
    other than [Bin] and [Ext], the [ReadInterface] of the older file
    returns the same value and leaves the source in the same state,
    whatever its buffer-filling readers do. *)
Theorem Legacy_ReadInterface_agrees :
  forall (readBinInto : list Z -> rd unit) (readExtInto : list Z -> rd Z)
         (r r' : Reader) (v : iface) (t : MType),
    ReadInterface r = (Ok (v, t), r') ->
    t <> Bin -> t <> Ext ->
    Legacy.ReadInterface readBinInto readExtInto r = (Ok v, r').
Proof.
  intros rb re r r' v t H Hb He.
  unfold ReadInterface, Legacy.ReadInterface, rd_bind in *.
  destruct (ReadByte r) as [[c|e] r0]; [|discriminate H].
  repeat match type of H with
  | (if ?b then _ else _) _ = _ => destruct b
  end; unfold reread, Legacy.reread, rd_ret, rd_fail in *;
    repeat match type of H with
    | context [match UnreadByte ?r with _ => _ end] =>
        destruct (UnreadByte r) as [[?|] ?]
    | context [match ?c ?r with _ => _ end] =>
        match type of (c r) with
        | (result _ * Reader)%type => destruct (c r) as [[?|?] ?]
        end
    end; try discriminate H; injection H as <- <- <-; congruence.
Qed.

Lemma Legacy_ReadInterface_agrees_witness :
  Legacy.ReadInterface (fun _ => rd_ret tt) (fun _ => rd_ret 0)
    {| pending := [0xcd; 1; 44; 0xc3]; last := None |}
  = (Ok (I_uint64 300), {| pending := [0xc3]; last := None |}).
Proof.
  apply (Legacy_ReadInterface_agrees (fun _ => rd_ret tt) (fun _ => rd_ret 0)
           {| pending := [0xcd; 1; 44; 0xc3]; last := None |}
           {| pending := [0xc3]; last := None |} (I_uint64 300) Uint eq_refl);
    discriminate.
Defined.

(** X16.  The [ReadInterface] of the older file never hands back a binary
    payload: a byte slice it returns has length 0, and so has the [Data] of
    an extension it returns, whatever was on the source and whatever its
    buffer-filling readers do. *)
Theorem Legacy_ReadInterface_no_payload :
  forall (readBinInto : list Z -> rd unit) (readExtInto : list Z -> rd Z)
         (r r' : Reader) (v : iface),
    Legacy.ReadInterface readBinInto readExtInto r = (Ok v, r') ->
    match v with
    | I_bytes b => b = []
    | I_PackExtPtr p => exists etype, p = Some {| EType := etype; Data := [] |}
    | I_PackExt _ => False
    | _ => True
    end.
Proof.
  intros rb re r r' v H. unfold Legacy.ReadInterface, rd_bind in H.
  destruct (ReadByte r) as [[c|e] r0]; [|discriminate H].
  repeat match type of H with
  | (if ?b then _ else _) _ = _ => destruct b
  end; reread_cases H; try discriminate H;
    injection H as <- _; eauto.
Qed.

Lemma Legacy_ReadInterface_no_payload_witness :
  exists etype, Some {| EType := 7; Data := [] |}
                = Some {| EType := etype; Data := ([] : list Z) |}.
Proof.
  exact (Legacy_ReadInterface_no_payload (fun _ => rd_ret tt)
           (fun _ => rd_ret 7)
           {| pending := [0xd4; 7; 1]; last := None |}
           {| pending := [0xd4; 7; 1]; last := None |}
           (I_PackExtPtr (Some {| EType := 7; Data := [] |})) eq_refl).
Defined.

(** ** What the readers take from the source *)

Lemma payload_ret {A} (a : A) : payloadReader (rd_ret a).
Proof. intros r. exists []. reflexivity. Qed.

Lemma payload_ReadFull (n : nat) : payloadReader (ReadFull n).
Proof.
  intros r. unfold ReadFull.
  destruct (n <=? length (pending r))%nat.
  - exists (take n (pending r)). cbn [pending]. symmetry. apply take_drop.
  - unfold sourceFault. destruct (pending r); auto.
Qed.

Lemma payload_bind {A B} (c : rd A) (k : A -> rd B) :
  payloadReader c -> (forall a, payloadReader (k a)) ->
  payloadReader (rd_bind c k).
Proof.
  intros Hc Hk r. unfold rd_bind. specialize (Hc r).
  destruct (c r) as [[a|e] r1]; [|exact Hc].
  destruct Hc as [u1 Hu1]. specialize (Hk a r1).
  destruct (k a r1) as [[b|e] r2]; [|exact Hk].
  destruct Hk as [u2 Hu2]. exists (u1 ++ u2).
  rewrite Hu1, Hu2, app_assoc. reflexivity.
Qed.

Lemma payload_readField (n : nat) : payloadReader (readField n).
Proof.
  unfold readField. apply payload_bind; [apply payload_ReadFull|].
  intros a. apply payload_ret.
Qed.

Ltac payload_solve :=
  repeat first
    [ apply payload_ret | apply payload_ReadFull | apply payload_readField
    | apply payload_bind; [|intros ?] ].

(** A reader that reads the tag and then runs [body] on it, where [body] is
    a payload reader or the wrong-tag fault. *)
Lemma tagReader_intro {A} (body : Z -> rd A) :
  (forall c, payloadReader (body c) \/ body c = rd_fail ErrBadTag) ->
  tagReader (rd_bind ReadByte body).
Proof.
  intros Hb [pend lst]. unfold rd_bind, ReadByte. cbn [pending].
  destruct pend as [|c tl].
  - left. left. reflexivity.
  - destruct (Hb c) as [Hp|Hf].
    + specialize (Hp {| pending := tl; last := Some c |}).
      destruct (body c _) as [[a|e] r']; cbn [pending] in *.
      * destruct Hp as [used ->]. eauto.
      * left. exact Hp.
    + rewrite Hf. right. split; [reflexivity|]. exists c. split; reflexivity.
Qed.

Ltac tag_cases :=
  repeat match goal with
  | |- context [if ?b then _ else _] => destruct b
  end.

Lemma tagReader_readInt : tagReader readInt.
Proof.
  apply tagReader_intro. intros c. tag_cases; auto; left; payload_solve.
Qed.

Lemma tagReader_readUint : tagReader readUint.
Proof.
  apply tagReader_intro. intros c. tag_cases; auto; left; payload_solve.
Qed.

Lemma tagReader_readFloat : tagReader readFloat.
Proof.
  apply tagReader_intro. intros c. tag_cases; auto; left; payload_solve.
Qed.

Lemma tagReader_readBool : tagReader readBool.
Proof.
  apply tagReader_intro. intros c. tag_cases; auto; left; payload_solve.
Qed.

Lemma tagReader_readString : tagReader readString.
Proof.
  apply tagReader_intro. intros c.
  tag_cases; first [ left; solve [payload_solve] | right; reflexivity ].
Qed.

Lemma tagReader_readBin (b : list Z) : tagReader (readBin b).
Proof.
  apply tagReader_intro. intros c.
  tag_cases; first [ left; solve [payload_solve] | right; reflexivity ].
Qed.

Lemma tagReader_readExt (b : list Z) : tagReader (readExt b).
Proof.
  apply tagReader_intro. intros c.
  tag_cases; first [ left; solve [payload_solve] | right; reflexivity ].
Qed.

Lemma tagReader_boxed {A} (box : A -> iface) (read : rd A) :
  tagReader read -> tagReader (boxed box read).
Proof.
  intros H r. specialize (H r). unfold boxed.
  destruct (read r) as [[a|e] r']; exact H.
Qed.

Lemma tagReader_readKind (K : MType) : K <> Invalid -> tagReader (readKind K).
Proof.
  destruct K; intros HK; try congruence; apply tagReader_boxed;
    auto using tagReader_readInt, tagReader_readUint, tagReader_readFloat,
      tagReader_readBool, tagReader_readString, tagReader_readBin,
      tagReader_readExt.
Qed.

(** X17.  Push-back is exact, on every source.  Whenever an exported reader
    ([ReadInt], [ReadUint], [ReadFloat], [ReadBool], [ReadString], [ReadBin],
    [ReadExt]) answers [ErrBadTag], the source holds exactly the bytes it
    held before the call. *)
Theorem exported_reader_pushback :
  forall (A : MType) (readA : rd iface) (r r' : Reader),
    ReadAs A = Some readA ->
    readA r = (Err ErrBadTag, r') ->
    pending r' = pending r.
Proof.
  intros A readA r r' HA H.
  rewrite (ReadAs_readKind A readA r HA) in H.
  assert (HK : A <> Invalid) by (intros ->; discriminate HA).
  pose proof (tagReader_readKind A HK r) as Ht.
  destruct (readKind A r) as [[a|e] r1]; [discriminate H|].
  destruct e; try discriminate H.
  injection H as <-.
  destruct Ht as [[Hf|Hf]|[_ (tag & Hp & Hl)]]; try discriminate Hf.
  unfold UnreadByte. rewrite Hl. cbn [snd pending]. congruence.
Qed.

Lemma exported_reader_pushback_witness :
  pending {| pending := [0xc3; 1]; last := None |}
  = pending {| pending := [0xc3; 1]; last := Some 9 |}.
Proof.
  exact (exported_reader_pushback String (boxed I_string ReadString)
           {| pending := [0xc3; 1]; last := Some 9 |}
           {| pending := [0xc3; 1]; last := None |} eq_refl eq_refl).
Defined.



(** X19.  Progress.  A successful call of an exported reader or of
    [ReadInterface] removes a non-empty prefix from the source, the tag
    byte first, and leaves the rest in place. *)
Theorem readers_consume_prefix :
  forall (r r' : Reader),
    (forall (A : MType) (readA : rd iface) (v : iface),
       ReadAs A = Some readA -> readA r = (Ok v, r') ->
       exists tag used, pending r = tag :: used ++ pending r')
    /\ (forall (v : iface) (t : MType),
          ReadInterface r = (Ok (v, t), r') ->
          exists tag used, pending r = tag :: used ++ pending r').
Proof.
  intros r r'. split.
  - intros A readA v HA H.
    rewrite (ReadAs_readKind A readA r HA) in H.
    assert (HK : A <> Invalid) by (intros ->; discriminate HA).
    pose proof (tagReader_readKind A HK r) as Ht.
    destruct (readKind A r) as [[a|e] r1].
    + injection H as _ <-. exact Ht.
    + destruct e; discriminate H.
  - intros v t H. unfold ReadInterface, rd_bind in H.
    destruct r as [pend lst]. unfold ReadByte in H. cbn [pending] in *.
    destruct pend as [|c tl]; [discriminate H|].
    assert (Hre : forall {A} (K : MType) (box : A -> iface) (read : rd A),
               tagReader read ->
               reread K box read {| pending := tl; last := Some c |}
               = (Ok (v, t), r') ->
               exists tag used, c :: tl = tag :: used ++ pending r').
    { intros A K box read Htr Hr. unfold reread, UnreadByte in Hr.
      cbn [last pending] in Hr.
      specialize (Htr {| pending := c :: tl; last := None |}).
      destruct (read _) as [[a|e] r1]; [|discriminate Hr].
      injection Hr as _ _ <-. exact Htr. }
    repeat match type of H with
    | (if ?b then _ else _) _ = _ => destruct b
    end;
      try (unfold rd_ret, rd_fail in H; first
             [ discriminate H
             | injection H as _ _ <-; exists c, []; reflexivity ]);
      eapply Hre; try exact H;
      auto using tagReader_readInt, tagReader_readUint, tagReader_readFloat,
        tagReader_readString, tagReader_readBin, tagReader_readExt.
Qed.

Lemma readers_consume_prefix_witness :
  exists tag used,
    pending {| pending := [0xcd; 1; 44; 0xc3]; last := None |}
    = tag :: used ++ pending {| pending := [0xc3]; last := None |}.
Proof.
  exact (proj2 (readers_consume_prefix
                  {| pending := [0xcd; 1; 44; 0xc3]; last := None |}
                  {| pending := [0xc3]; last := None |})
           (I_uint64 300) Uint eq_refl).
Defined.

(** ** The faults of [ReadInterface] *)

Lemma tagType_Invalid_iff (c : Z) :
  0 <= c < 256 -> (tagType c = Invalid <-> unknownTag c).
Proof.
  intros Hc.
  pose proof (byte_forallb
    (fun c => Bool.eqb (bool_decide (tagType c = Invalid))
                ((0x80 <=? c) && (c <=? 0x9f) || (c =? 0xc0) || (c =? 0xc1)
                 || (0xdc <=? c) && (c <=? 0xdf)))
    eq_refl c Hc) as Hb.
  cbv beta in Hb. apply Bool.eqb_prop in Hb. unfold unknownTag. split.
  - intros Ht. rewrite (bool_decide_eq_true_2 _ Ht) in Hb. symmetry in Hb.
    repeat (apply orb_true_iff in Hb as [Hb|Hb]); zbool; lia.
  - intros Hu. apply (bool_decide_eq_true_1 (tagType c = Invalid)). rewrite Hb.
    destruct Hu as [Hu|[Hu|[Hu|Hu]]].
    + replace ((128 <=? c) && (c <=? 159)) with true; [reflexivity|].
      symmetry. apply andb_true_iff. split; apply Z.leb_le; lia.
    + subst c. reflexivity.
    + subst c. reflexivity.
    + replace ((220 <=? c) && (c <=? 223)) with true;
        [rewrite orb_true_r; reflexivity|].
      symmetry. apply andb_true_iff. split; apply Z.leb_le; lia.
Qed.

Opaque readField ReadFull.

Ltac payload_fault H :=
  repeat match type of H with
  | context [readField ?n ?r0] =>
      let Hp := fresh "Hp" in
      pose proof (payload_readField n r0) as Hp;
      destruct (readField n r0) as [[?|?] ?];
      [clear Hp | destruct Hp; congruence]
  | context [ReadFull ?n ?r0] =>
      let Hp := fresh "Hp" in
      pose proof (payload_ReadFull n r0) as Hp;
      destruct (ReadFull n r0) as [[?|?] ?];
      [clear Hp | destruct Hp; congruence]
  end.

(** A reader facing a tag of its own kind does not answer [ErrBadTag]. *)
Lemma readKind_own_tag :
  forall c, 0 <= c < 256 ->
    forall (tl : list Z) (l : option Z) (r' : Reader),
      readKind (tagType c) {| pending := c :: tl; last := l |}
      = (Err ErrBadTag, r') -> tagType c = Invalid.
Proof.
  each_byte ltac:(intros tl l r' H; first
    [ reflexivity
    | exfalso; simpl in H;
      unfold boxed, readInt, readUint, readFloat, readBool, readString,
        readBin, readExt, rd_bind, rd_ret, rd_fail, ReadByte in H;
      simpl in H; payload_fault H; discriminate H ]).
Qed.

Transparent readField ReadFull.

(** X20.  A leading byte that introduces no kind of this format (the map
    and array prefixes, nil, the unused 0xc1) makes [ReadInterface] return
    [ErrTypeNotSupported]; that byte is consumed and is not pushed back. *)
Theorem ReadInterface_unknown_tag :
  forall (c : Z) (tl : list Z) (l : option Z),
    0 <= c < 256 ->
    unknownTag c ->
    ReadInterface {| pending := c :: tl; last := l |}
    = (Err ErrTypeNotSupported, {| pending := tl; last := Some c |}).
Proof.
  intros c tl l Hc Hu.
  rewrite ReadInterface_dispatch by exact Hc.
  apply (tagType_Invalid_iff c Hc) in Hu. rewrite Hu. reflexivity.
Qed.

Lemma ReadInterface_unknown_tag_witness :
  ReadInterface {| pending := [0x82; 0xa7]; last := None |}
  = (Err ErrTypeNotSupported, {| pending := [0xa7]; last := Some 0x82 |}).
Proof.
  apply (ReadInterface_unknown_tag 0x82 [0xa7] None).
  - lia.
  - left. lia.
Defined.

(** X21.  The faults of [ReadInterface].  On a source of bytes, a call that
    faults either ran out of source ([EOF], [ErrUnexpectedEOF]) or met a
    leading byte of no kind, which it reports as [ErrTypeNotSupported]; it
    never answers [ErrBadTag] and its push-back never fails. *)
Theorem ReadInterface_faults :
  forall (r r' : Reader) (e : error),
    Forall (fun b => 0 <= b < 256) (pending r) ->
    ReadInterface r = (Err e, r') ->
    sourceFault e
    \/ (e = ErrTypeNotSupported
        /\ exists c, pending r = c :: pending r' /\ unknownTag c).
Proof.
  intros [pend lst] r' e Hb H. cbn [pending] in Hb.
  destruct pend as [|c tl].
  - injection H as <- _. left. left. reflexivity.
  - apply Forall_cons in Hb as [Hc _].
    rewrite ReadInterface_dispatch in H by exact Hc.
    destruct (tagType c) eqn:Ht;
      try (injection H as <- <-; right; split; [reflexivity|];
           exists c; split; [reflexivity|];
           apply (tagType_Invalid_iff c Hc); exact Ht);
      cbv zeta in H;
      match type of H with
      | context [readKind ?K ?r0] =>
          pose proof (tagReader_readKind K ltac:(discriminate) r0) as Htr;
          pose proof (fun r1 => readKind_own_tag c Hc tl None r1) as Hown;
          rewrite Ht in Hown;
          destruct (readKind K r0) as [[a|e1] r1]; [discriminate H|];
          injection H as <- <-;
          destruct Htr as [Hf|[-> _]]; [left; exact Hf|];
          discriminate (Hown r1 eq_refl)
      end.
Qed.

Lemma ReadInterface_faults_witness :
  sourceFault ErrUnexpectedEOF
  \/ (ErrUnexpectedEOF = ErrTypeNotSupported
      /\ exists c, pending {| pending := [0xcd; 1]; last := None |}
                   = c :: pending {| pending := []; last := None |}
                   /\ unknownTag c).
Proof.
  apply (ReadInterface_faults {| pending := [0xcd; 1]; last := None |}
           {| pending := []; last := None |} ErrUnexpectedEOF).
  - repeat constructor; lia.
  - reflexivity.
Defined.

(** * Further properties: outcomes of [Encode] and [DecodeToMap] *)

Lemma encode_None_iff (v : iface) (o : Object) (w : Writer) :
  (encode v o w).1 = None
  <-> schemaKind (T o) = true /\ hostMatches (T o) v = true.
Proof.
  unfold encode. destruct (T o), v; simpl; split;
    first [ intros [? ?]; discriminate | intros; discriminate | auto ].
Qed.

(** X22.  With one value per field, [Encode] returns nil exactly when every
    field is of kind [Float], [Uint], [Int], [Bool], [String] or [Bin] and
    its value has that kind's host type. *)
Theorem Encode_nil_iff :
  forall (s : Schema) (a : list iface) (w : Writer),
    length a = length s ->
    ((exists w', Encode s a w = Normal (None, w'))
     <-> Forall2 (fun v o => schemaKind (T o) = true
                             /\ hostMatches (T o) v = true) a s).
Proof.
  intros s. induction s as [|o s IH]; intros a w Hlen.
  - destruct a; [|discriminate]. split; [constructor | eauto].
  - destruct a as [|v a]; [discriminate|]. injection Hlen as Hlen.
    rewrite Encode_cons.
    pose proof (encode_None_iff v o w) as Hiff.
    destruct (encode v o w) as [[e|] w1]; cbn [fst] in Hiff.
    + split.
      * intros [w' H]. discriminate H.
      * intros H. inversion H as [|? ? ? ? Hvo _]; subst.
        apply Hiff in Hvo. discriminate Hvo.
    + rewrite (IH a w1 Hlen). split.
      * intros H. constructor; [apply Hiff; reflexivity | exact H].
      * intros H. inversion H; subst. assumption.
Qed.

Lemma Encode_nil_iff_witness :
  (exists w', Encode [{| T := Bool; Name := "compact" |};
                      {| T := Int; Name := "schema" |}]
                     [I_bool true; I_int64 0] [] = Normal (None, w'))
  <-> Forall2 (fun v o => schemaKind (T o) = true
                          /\ hostMatches (T o) v = true)
        [I_bool true; I_int64 0]
        [{| T := Bool; Name := "compact" |}; {| T := Int; Name := "schema" |}].
Proof.
  exact (Encode_nil_iff [{| T := Bool; Name := "compact" |};
                         {| T := Int; Name := "schema" |}]
           [I_bool true; I_int64 0] [] eq_refl).
Defined.



(** X24.  A [DecodeToMap] that returns nil has set an entry under every
    field name and under no other key: the keys of the map are those it
    held before together with the schema's names, and an entry under any
    other key is as it was. *)
Theorem DecodeToMap_success_keys :
  forall (s : Schema) (r r' : Reader) (m m' : gmap string iface),
    DecodeToMap s r m = (None, r', m') ->
    dom m' = dom m ∪ list_to_set (Name <$> s)
    /\ (forall o, o ∈ s -> is_Some (m' !! Name o))
    /\ (forall k : string, k ∉ (Name <$> s) -> m' !! k = m !! k).
Proof.
  intros s r r' m m' H.
  pose proof (DecodeToMap_dom s r r' m m' H) as Hdom.
  split; [exact Hdom|]. split.
  - intros o Ho. apply elem_of_dom. rewrite Hdom.
    apply elem_of_union_r, elem_of_list_to_set, list_elem_of_fmap.
    exists o. split; [reflexivity | exact Ho].
  - exact (DecodeToMap_frame s r r' m m' None H).
Qed.

Lemma DecodeToMap_success_keys_witness :
  is_Some ((<["s"%string := I_string "x"]> (<["n"%string := I_int64 10]> ∅)
            : gmap string iface) !! "s"%string).
Proof.
  refine (proj1 (proj2 (DecodeToMap_success_keys
            [{| T := Int; Name := "n" |}; {| T := String; Name := "s" |}]
            {| pending := [10; 0xa1; 120]; last := None |}
            {| pending := []; last := None |} ∅
            (<["s"%string := I_string "x"]> (<["n"%string := I_int64 10]> ∅))
            eq_refl)) {| T := String; Name := "s" |} _).
  apply list_elem_of_In. right. left. reflexivity.
Defined.
